(** * map.js: a shallow embedding of the interactive map viewer

    The development follows [src/map.js] function by function.  Browser
    and Leaflet objects are replaced by explicit state records; every
    asynchronous completion (a settled promise, a fired timer, an idle
    callback) is an event of a small event loop, so that the order in
    which completions arrive is quantified over instead of fixed. *)

From Stdlib Require Import ZArith QArith Qround Qabs Qminmax String Ascii List Lia Lqa Bool.
From stdpp Require Import gmap strings list.
Import ListNotations.

Local Open Scope string_scope.
Local Open Scope list_scope.
Local Open Scope Z_scope.

(** ** JavaScript primitives used by map.js *)

Module JS.

(** Text is held in UTF-8: a string is the sequence of the bytes of
    its code points.  On well-formed text [includes], [startsWith],
    concatenation and equality of the bytes agree with the operations
    of JavaScript on code units, both encodings being
    self-synchronizing. *)

Definition utf8 (bytes : list nat) : string :=
  string_of_list_ascii (map ascii_of_nat bytes).

(** WhiteSpace and LineTerminator of ECMA-262, the code points that
    [trim] and [parseFloat] strip: U+0009 to U+000D, U+0020, U+00A0,
    U+1680, U+2000 to U+200A, U+2028, U+2029, U+202F, U+205F, U+3000
    and U+FEFF. *)
Definition whiteSpace : list string :=
  map utf8
    [[9]; [10]; [11]; [12]; [13]; [32];
     [194; 160];
     [225; 154; 128];
     [226; 128; 128]; [226; 128; 129]; [226; 128; 130]; [226; 128; 131];
     [226; 128; 132]; [226; 128; 133]; [226; 128; 134]; [226; 128; 135];
     [226; 128; 136]; [226; 128; 137]; [226; 128; 138];
     [226; 128; 168]; [226; 128; 169]; [226; 128; 175];
     [226; 129; 159];
     [227; 128; 128];
     [239; 187; 191]]%nat.

(** [s] without the prefix [p], when it starts with it *)
Fixpoint stripPrefix (p s : string) : option string :=
  match p, s with
  | EmptyString, _ => Some s
  | String a p', String b s' => if Ascii.eqb a b then stripPrefix p' s' else None
  | String _ _, EmptyString => None
  end.

(** The text after one leading white space, if there is one *)
Definition afterWhiteSpace (s : string) : option string :=
  fold_right (λ w rest, match stripPrefix w s with
                        | Some r => Some r
                        | None => rest
                        end) None whiteSpace.

(** [String.prototype.trimStart]; [fuel] bounds the number of white
    spaces stripped. *)
Fixpoint trimStartFuel (fuel : nat) (s : string) : string :=
  match fuel with
  | O => s
  | S k =>
      match afterWhiteSpace s with
      | Some r => trimStartFuel k r
      | None => s
      end
  end.

Definition trimStart (s : string) : string := trimStartFuel (String.length s) s.

(** JavaScript truthiness of a string: non-empty *)
Definition truthy (s : string) : bool :=
  match s with EmptyString => false | _ => true end.

(** A string of white space only (the empty string included) *)
Definition isBlank (s : string) : bool := negb (truthy (trimStart s)).

(** [String.prototype.trimEnd]: the longest suffix of white space goes. *)
Fixpoint trimEnd (s : string) : string :=
  match s with
  | EmptyString => EmptyString
  | String c r => if isBlank s then EmptyString else String c (trimEnd r)
  end.

(** [String.prototype.trim] *)
Definition trim (s : string) : string := trimEnd (trimStart s).

(** Text of the ASCII range only *)
Fixpoint isAscii (s : string) : bool :=
  match s with
  | EmptyString => true
  | String c r => Nat.ltb (nat_of_ascii c) 128 && isAscii r
  end.

(** Lower case within ASCII: A..Z *)
Definition lowerChar (c : ascii) : ascii :=
  let n := nat_of_ascii c in
  if Nat.leb 65 n && Nat.leb n 90 then ascii_of_nat (n + 32) else c.

Fixpoint lowerAscii (s : string) : string :=
  match s with
  | EmptyString => EmptyString
  | String c r => String (lowerChar c) (lowerAscii r)
  end.

(** [String.prototype.toLowerCase] follows the case tables of the
    Unicode Character Database, which belong to the engine and not to
    the repository: the function is taken as given.  What is used of
    it: on ASCII text it lowers A..Z and changes nothing else, and only
    the empty text is mapped to the empty text. *)
Class CaseTables := {
  toLowerCase : string → string;
  toLowerCase_ascii : ∀ s, isAscii s = true → toLowerCase s = lowerAscii s;
  toLowerCase_nonempty : ∀ s, toLowerCase s = EmptyString → s = EmptyString
}.

Fixpoint startsWith (s p : string) {struct p} : bool :=
  match p, s with
  | EmptyString, _ => true
  | String _ _, EmptyString => false
  | String a p', String b s' => Ascii.eqb a b && startsWith s' p'
  end.

(** [String.prototype.includes]: [q] occurs somewhere in [s] *)
Fixpoint includes (s q : string) : bool :=
  startsWith s q ||
  match s with
  | EmptyString => false
  | String _ r => includes r q
  end.

(** [a || b] on strings *)
Definition orElse (a b : string) : string := if truthy a then a else b.

(** [Array.prototype.slice(0, end)] for an integer [end]: a negative
    [end] counts from the end of the array. *)
Definition slice0 {A} (l : list A) (e : Z) : list A :=
  if e <? 0 then take (Z.to_nat (Z.max (Z.of_nat (length l) + e) 0)) l
  else take (Z.to_nat e) l.

(** Numbers: the finite values are kept as exact rationals (rounding to
    a binary64 is left out), with the special values parseFloat can
    return. *)
Inductive number :=
| NaN
| Infinity (negative : bool)
| Num (q : Q).

Definition isNaN (x : number) : bool :=
  match x with NaN => true | _ => false end.

Definition isDigit (c : ascii) : bool :=
  let n := nat_of_ascii c in Nat.leb 48 n && Nat.leb n 57.

Definition digitVal (c : ascii) : Z := Z.of_nat (nat_of_ascii c) - 48.

(** Reads the longest run of decimal digits: its value continued from
    [acc], how many digits were read, and the rest of the input. *)
Fixpoint readDigits (s : string) (acc : Z) (n : nat) : Z * nat * string :=
  match s with
  | String c r =>
      if isDigit c then readDigits r (10 * acc + digitVal c) (S n)
      else (acc, n, s)
  | EmptyString => (acc, n, s)
  end.

Definition readSign (s : string) : bool * string :=
  match s with
  | String "-" r => (true, r)
  | String "+" r => (false, r)
  | _ => (false, s)
  end.

(** The optional exponent part [e[+-]ddd]; 0 when there is none. *)
Definition readExponent (s : string) : Z :=
  match s with
  | String c r =>
      if Ascii.eqb c "e" || Ascii.eqb c "E" then
        let '(neg, r1) := readSign r in
        let '(v, n, _) := readDigits r1 0 0 in
        match n with
        | O => 0
        | _ => if neg then - v else v
        end
      else 0
  | EmptyString => 0
  end.

(** The number read after the sign: [Infinity], or digits with an
    optional fraction and exponent; NaN when no digit is found. *)
Definition readDecimal (neg : bool) (s1 : string) : number :=
  if startsWith s1 "Infinity" then Infinity neg else
  let '(ip, ni, s2) := readDigits s1 0 0 in
  let '(fp, nf, s3) :=
    match s2 with
    | String "." r => readDigits r 0 0
    | _ => (0, O, s2)
    end in
  match ni, nf with
  | O, O => NaN
  | _, _ =>
      let mant := (inject_Z ip + inject_Z fp / inject_Z (10 ^ Z.of_nat nf))%Q in
      let v := (mant * Qpower (inject_Z 10) (readExponent s3))%Q in
      Num (if neg then Qopp v else v)
  end.

(** [parseFloat]: leading white space is skipped, then the longest
    prefix that is a decimal literal is read; NaN when there is none. *)
Definition parseFloat (s : string) : number :=
  let '(neg, s1) := readSign (trimStart s) in
  readDecimal neg s1.

(** The character of a decimal digit *)
Definition digitChar (d : Z) : ascii := ascii_of_nat (48 + Z.to_nat d).

(** The last [w] decimal digits of [n], with leading zeros *)
Fixpoint digitsPad (w : nat) (n : Z) : string :=
  match w with
  | O => EmptyString
  | S k => digitsPad k (n / 10) +:+ String (digitChar (n mod 10)) EmptyString
  end.

(** The decimal numeral of [n >= 0] without leading zeros; [fuel]
    bounds the number of digits. *)
Fixpoint digitsFuel (fuel : nat) (n : Z) : string :=
  match fuel with
  | O => EmptyString
  | S k =>
      if n <? 10 then String (digitChar n) EmptyString
      else digitsFuel k (n / 10) +:+ String (digitChar (n mod 10)) EmptyString
  end.

Definition decimal (n : Z) : string := digitsFuel (S (Z.to_nat (Z.log2 n))) n.

(** [Number.prototype.toFixed(f)] on a finite number.  From 10^21 on
    the result is that of [Number::toString] (exponent notation),
    which is left as a parameter.  Below, [n] is the integer nearest
    to [|x| * 10^f] (the larger one on a tie), printed with the point
    before its last [f] digits and the sign of [x] in front. *)
Definition toFixed (numberToString : Q → string) (f : nat) (x : Q) : string :=
  if Qle_bool (inject_Z (10 ^ 21)) (Qabs x) then numberToString x
  else
    let n := Qfloor (Qabs x * inject_Z (10 ^ Z.of_nat f) + (1 # 2)) in
    let s := if Qle_bool 0 x then "" else "-" in
    let a := decimal (n / 10 ^ Z.of_nat f) in
    match f with
    | O => s +:+ a
    | _ => s +:+ a +:+ "." +:+ digitsPad f (n mod 10 ^ Z.of_nat f)
    end.

(** *** Facts about the string primitives *)

Lemma startsWith_spec s p : startsWith s p = true ↔ ∃ post, s = p +:+ post.
Proof.
  revert s. induction p as [| a p IH]; intros s; simpl.
  { split; [intros _; by exists s | done]. }
  destruct s as [| b s]; simpl.
  { split; [done | by intros [post ?]]. }
  rewrite andb_true_iff, IH, Ascii.eqb_eq. split.
  - intros [-> [post ->]]. by exists post.
  - intros [post Hs]. injection Hs as -> ->. eauto.
Qed.

Lemma includes_spec s q : includes s q = true ↔ ∃ pre post, s = pre +:+ q +:+ post.
Proof.
  induction s as [| c s IH].
  - cbn [includes]. rewrite orb_false_r, startsWith_spec. split.
    + intros [post H]. by exists EmptyString, post.
    + intros (pre & post & H). destruct pre; [by exists post | discriminate].
  - cbn [includes]. rewrite orb_true_iff, startsWith_spec, IH. split.
    + intros [[post H] | (pre & post & H)].
      * by exists EmptyString, post.
      * exists (String c pre), post. simpl. by rewrite H.
    + intros (pre & post & H). destruct pre as [| c' pre]; simpl in H.
      * left. by exists post.
      * right. injection H as -> ->. by exists pre, post.
Qed.

Lemma append_cons x (a b : string) : String x a +:+ b = String x (a +:+ b).
Proof. reflexivity. Qed.

Lemma append_assoc (a b c : string) : (a +:+ b) +:+ c = a +:+ (b +:+ c).
Proof. induction a as [| x a IH]; [done | by rewrite !append_cons, IH]. Qed.


Lemma length_append (a b : string) :
  String.length (a +:+ b) = (String.length a + String.length b)%nat.
Proof. induction a as [| x a IH]; [done | rewrite append_cons; simpl; by rewrite IH]. Qed.

Lemma stripPrefix_spec p : ∀ s r, stripPrefix p s = Some r ↔ s = p +:+ r.
Proof.
  induction p as [| a p IH]; intros s r; cbn [stripPrefix].
  { change (EmptyString +:+ r) with r. split; congruence. }
  destruct s as [| b s]; [by split |]. rewrite append_cons.
  destruct (Ascii.eqb_spec a b) as [-> | Hne].
  - rewrite IH. split; [by intros -> | by intros [= ->]].
  - split; [done | intros [= ? ?]; congruence].
Qed.

(** *** White space *)

Lemma afterWhiteSpace_Some s r :
  afterWhiteSpace s = Some r → ∃ w, w ∈ whiteSpace ∧ s = w +:+ r.
Proof.
  unfold afterWhiteSpace. induction whiteSpace as [| w ws IH]; cbn [fold_right]; [done |].
  destruct (stripPrefix w s) as [r'|] eqn:E.
  - intros [= ->]. apply stripPrefix_spec in E. exists w. split; [by left | done].
  - intros (w' & ? & ?)%IH. exists w'. split; [by right | done].
Qed.

(** No entry of the table is the start of another one. *)
Lemma afterWhiteSpace_table :
  Forall (λ w, ∀ r, afterWhiteSpace (w +:+ r) = Some r) whiteSpace.
Proof. repeat (apply Forall_cons; split; [intros r; reflexivity |]). apply Forall_nil_2. Qed.

Lemma afterWhiteSpace_code w r : w ∈ whiteSpace → afterWhiteSpace (w +:+ r) = Some r.
Proof.
  intros Hw. pose proof afterWhiteSpace_table as H.
  rewrite Forall_forall in H. by apply H.
Qed.

Lemma afterWhiteSpace_app s r t :
  afterWhiteSpace s = Some r → afterWhiteSpace (s +:+ t) = Some (r +:+ t).
Proof.
  intros (w & Hw & ->)%afterWhiteSpace_Some. rewrite append_assoc.
  by apply afterWhiteSpace_code.
Qed.

Lemma whiteSpace_nonempty : Forall (λ w, w ≠ EmptyString) whiteSpace.
Proof. repeat (apply Forall_cons; split; [discriminate |]). apply Forall_nil_2. Qed.

Lemma afterWhiteSpace_shorter s r :
  afterWhiteSpace s = Some r → (String.length r < String.length s)%nat.
Proof.
  intros (w & Hw & ->)%afterWhiteSpace_Some. rewrite length_append.
  pose proof whiteSpace_nonempty as H. rewrite Forall_forall in H.
  specialize (H w Hw). destruct w; [done | simpl; lia].
Qed.

Lemma trimStartFuel_enough n : ∀ m s,
  (String.length s ≤ n)%nat → (String.length s ≤ m)%nat →
  trimStartFuel n s = trimStartFuel m s.
Proof.
  induction n as [| n IH]; intros m s Hn Hm.
  - destruct s; [| simpl in Hn; lia]. by destruct m.
  - destruct m as [| m].
    + destruct s; [done | simpl in Hm; lia].
    + cbn [trimStartFuel]. destruct (afterWhiteSpace s) as [r|] eqn:E; [| done].
      apply afterWhiteSpace_shorter in E. apply IH; lia.
Qed.

(** The equation of [trimStart] *)
Lemma trimStart_eq s :
  trimStart s = match afterWhiteSpace s with
                | Some r => trimStart r
                | None => s
                end.
Proof.
  unfold trimStart. destruct s as [| c s]; [done |].
  cbn [String.length trimStartFuel].
  destruct (afterWhiteSpace (String c s)) as [r|] eqn:E; [| done].
  apply afterWhiteSpace_shorter in E. cbn [String.length] in E.
  apply trimStartFuel_enough; lia.
Qed.

(** Induction along the white space at the start of a text *)
Lemma trimStart_ind (P : string → Prop) :
  (∀ s, afterWhiteSpace s = None → P s) →
  (∀ s r, afterWhiteSpace s = Some r → P r → P s) →
  ∀ s, P s.
Proof.
  intros Hnone Hsome s.
  remember (String.length s) as n eqn:Hn. revert s Hn.
  induction n as [n IH] using lt_wf_ind. intros s ->.
  destruct (afterWhiteSpace s) as [r|] eqn:E; [| by apply Hnone].
  apply (Hsome s r E). apply (IH (String.length r)); [| done].
  by apply afterWhiteSpace_shorter.
Qed.

Lemma trimStart_head s : afterWhiteSpace (trimStart s) = None.
Proof.
  induction s as [s Hs | s r Hs IH] using trimStart_ind; rewrite trimStart_eq, Hs; done.
Qed.

Lemma trimStart_idem s : trimStart (trimStart s) = trimStart s.
Proof. by rewrite (trimStart_eq (trimStart s)), trimStart_head. Qed.

Lemma trimStart_blank s : isBlank (trimStart s) = isBlank s.
Proof. unfold isBlank. by rewrite trimStart_idem. Qed.

Lemma isBlank_spec s : isBlank s = true ↔ trimStart s = EmptyString.
Proof. unfold isBlank. by destruct (trimStart s). Qed.

(** White space in front of a text does not count. *)
Lemma trimStart_blank_prefix ws s :
  isBlank ws = true → trimStart (ws +:+ s) = trimStart s.
Proof.
  induction ws as [ws Hw | ws r Hw IH] using trimStart_ind; intros Hb.
  - apply isBlank_spec in Hb. rewrite trimStart_eq, Hw in Hb. by subst ws.
  - rewrite trimStart_eq, (afterWhiteSpace_app _ _ _ Hw). apply IH.
    apply isBlank_spec. apply isBlank_spec in Hb. by rewrite trimStart_eq, Hw in Hb.
Qed.

Lemma isBlank_app ws s : isBlank ws = true → isBlank (ws +:+ s) = isBlank s.
Proof. intros Hb. unfold isBlank. by rewrite trimStart_blank_prefix. Qed.

Lemma trimEnd_empty s : trimEnd s = EmptyString ↔ isBlank s = true.
Proof.
  destruct s as [| c r]; [done |]. cbn [trimEnd].
  destruct (isBlank (String c r)); [done | by split].
Qed.

(** What [trimEnd] takes away is white space. *)
Lemma trimEnd_suffix s : ∃ b, s = trimEnd s +:+ b ∧ isBlank b = true.
Proof.
  induction s as [| c r (b & Hr & Hb)]; [by exists EmptyString |].
  cbn [trimEnd]. destruct (isBlank (String c r)) eqn:E.
  - by exists (String c r).
  - exists b. rewrite append_cons. by rewrite <- Hr.
Qed.

Lemma trimEnd_idem s : trimEnd (trimEnd s) = trimEnd s.
Proof.
  induction s as [| c r IH]; [done |]. cbn [trimEnd].
  destruct (isBlank (String c r)) eqn:E; [done |]. cbn [trimEnd].
  destruct (isBlank (String c (trimEnd r))) eqn:E'; [| by rewrite IH].
  destruct (trimEnd_suffix r) as (b & Hr & Hb).
  rewrite Hr, <- append_cons, isBlank_app in E by done. congruence.
Qed.

(** [trim] returns the empty string exactly on white space only. *)
Lemma trim_empty s : trim s = EmptyString ↔ isBlank s = true.
Proof. unfold trim. by rewrite trimEnd_empty, trimStart_blank. Qed.

(** A trimmed text has no white space at its start... *)
Lemma trim_head s : afterWhiteSpace (trim s) = None.
Proof.
  unfold trim. destruct (trimEnd_suffix (trimStart s)) as (b & Hs & Hb).
  destruct (afterWhiteSpace (trimEnd (trimStart s))) as [r|] eqn:E; [| done].
  pose proof (trimStart_head s) as Hh.
  rewrite Hs, (afterWhiteSpace_app _ _ _ E) in Hh. done.
Qed.

(** ... and trimming it again changes nothing. *)
Lemma trim_idem s : trim (trim s) = trim s.
Proof.
  unfold trim at 1. rewrite trimStart_eq, trim_head. unfold trim. apply trimEnd_idem.
Qed.

Lemma isAscii_lowerAscii_empty s : lowerAscii s = EmptyString → s = EmptyString.
Proof. by destruct s. Qed.

(** The case tables restricted to ASCII: letters outside it are left
    as they are.  They agree with every engine on ASCII text. *)
Definition asciiTables : CaseTables :=
  Build_CaseTables lowerAscii (λ s _, eq_refl) isAscii_lowerAscii_empty.

Lemma toLowerCase_empty `{!CaseTables} s : toLowerCase s = EmptyString ↔ s = EmptyString.
Proof.
  split; [apply toLowerCase_nonempty |]. intros ->. by rewrite toLowerCase_ascii.
Qed.

Lemma truthy_spec s : truthy s = true ↔ s ≠ EmptyString.
Proof. by destruct s. Qed.

Example slice0_negative : slice0 [1; 2; 3] (-1) = [1; 2].
Proof. reflexivity. Qed.

(** *** Printing and reading decimal numerals *)



















End JS.

(** ** The image memo cache: [loadImage] and [warmCache] (map.js 28-69) *)

Module ImageCache.

(** A promise is pending until the image fires [onload] (resolved) or
    [onerror] (rejected). *)
Inductive pstate := Pending | Resolved | Rejected.

(** What [await] hands to the code after it: a value, or an exception. *)
Inductive outcome (A : Type) :=
| Ok (a : A)
| Throw (e : string).
Arguments Ok {A} a.
Arguments Throw {A} e.

(** A warm loop suspended at [await loadImage(url)] *)
Record waiter := mkWaiter {
  w_promise : nat;
  w_url : string;
  w_rest : list string                 (* urls of [toWarm] not yet visited *)
}.

Record state := mkState {
  imageLoadCache : gmap string nat;    (* url -> promise, the Map of line 29 *)
  promises : list pstate;              (* promise table, indexed by promise *)
  started : list string;               (* every [img.src = url], oldest first *)
  scheduled : list (list string);      (* [run] closures given to requestIdleCallback / setTimeout *)
  parked : list waiter;                (* warm loops suspended at [await] *)
  uncaught : list string               (* exceptions that left a warm loop *)
}.

Definition init : state := mkState ∅ [] [] [] [] [].

(** [loadImage(url)]: the memoized promise, or a new one whose executor
    starts the load. *)
Definition loadImage (url : string) (st : state) : nat * state :=
  match imageLoadCache st !! url with
  | Some p => (p, st)
  | None =>
      let p := length (promises st) in
      (p, mkState (<[url := p]> (imageLoadCache st))
                  (promises st ++ [Pending])
                  (started st ++ [url])
                  (scheduled st) (parked st) (uncaught st))
  end.

(** [urls.slice(0, limit).filter((u) => !imageLoadCache.has(u))] *)
Definition toWarm (urls : list string) (limit : Z) (st : state) : list string :=
  filter (λ u, imageLoadCache st !! u = None) (JS.slice0 urls limit).

(** [warmCache(urls, limit = 8)]: nothing is loaded by the call itself;
    the loop is handed to the idle (or timer) queue. *)
Definition warmCache (urls : list string) (limit : option Z) (st : state) : state :=
  match toWarm urls (default 8 limit) st with
  | [] => st
  | w => mkState (imageLoadCache st) (promises st) (started st)
                 (scheduled st ++ [w]) (parked st) (uncaught st)
  end.

(** The result of [await p] once [p] has settled. *)
Definition awaited (url : string) (ps : pstate) : option (outcome string) :=
  match ps with
  | Pending => None
  | Resolved => Some (Ok url)
  | Rejected => Some (Throw ("Failed to load image: " ++ url))
  end.

(** [try { ... } catch {}] *)
Definition tryCatch {A} (o : outcome A) : outcome unit :=
  match o with
  | Ok _ => Ok tt
  | Throw _ => Ok tt
  end.

Definition park (w : waiter) (st : state) : state :=
  mkState (imageLoadCache st) (promises st) (started st)
          (scheduled st) (parked st ++ [w]) (uncaught st).

Definition raise (e : string) (st : state) : state :=
  mkState (imageLoadCache st) (promises st) (started st)
          (scheduled st) (parked st) (uncaught st ++ [e]).

(** What follows an [await] that returned [o] inside the [try]: the
    next iteration, unless an exception leaves the loop body. *)
Definition afterAwait (k : state -> state) (o : outcome string) (st : state) : state :=
  match tryCatch o with
  | Ok _ => k st
  | Throw e => raise e st
  end.

(** [for (const url of toWarm) { try { await loadImage(url); } catch {} }]
    run until the loop ends or has to wait for a pending promise. *)
Fixpoint advance (urls : list string) (st : state) : state :=
  match urls with
  | [] => st
  | u :: rest =>
      let '(p, st1) := loadImage u st in
      match promises st1 !! p with
      | Some ps =>
          match awaited u ps with
          | None => park (mkWaiter p u rest) st1
          | Some o => afterAwait (advance rest) o st1
          end
      | None => park (mkWaiter p u rest) st1
      end
  end.

(** The promise [p] settles; loops parked on it resume in order. *)
Definition settle (p : nat) (ok : bool) (st : state) : state :=
  match promises st !! p with
  | Some Pending =>
      let ps := if ok then Resolved else Rejected in
      let woken := filter (λ w, w_promise w = p) (parked st) in
      let asleep := filter (λ w, w_promise w ≠ p) (parked st) in
      let st1 := mkState (imageLoadCache st) (<[p := ps]> (promises st)) (started st)
                         (scheduled st) asleep (uncaught st) in
      fold_left (λ s w, match awaited (w_url w) ps with
                        | Some o => afterAwait (advance (w_rest w)) o s
                        | None => park w s
                        end) woken st1
  | _ => st
  end.

(** The idle callback (or timer) runs the [k]-th scheduled closure. *)
Definition idle (k : nat) (st : state) : state :=
  match scheduled st !! k with
  | Some w =>
      advance w (mkState (imageLoadCache st) (promises st) (started st)
                         (delete k (scheduled st)) (parked st) (uncaught st))
  | None => st
  end.

Inductive event :=
| EvLoadImage (url : string)                      (* a caller such as showSidePopup *)
| EvWarmCache (urls : list string) (limit : option Z)
| EvIdle (k : nat)
| EvImageSettles (p : nat) (ok : bool).

Definition step (st : state) (e : event) : state :=
  match e with
  | EvLoadImage url => (loadImage url st).2
  | EvWarmCache urls limit => warmCache urls limit st
  | EvIdle k => idle k st
  | EvImageSettles p ok => settle p ok st
  end.

Definition run (tr : list event) (st : state) : state := fold_left step tr st.


(** *** What every event preserves *)

(** The load log and the memo table describe each other: a url was
    loaded exactly when it has an entry, and no url was loaded twice. *)
Definition inv (st : state) : Prop :=
  NoDup (started st) ∧
  ∀ u, u ∈ started st ↔ is_Some (imageLoadCache st !! u).

(** [st'] is a later state of [st]: memo entries and settled promises
    stay as they are, nothing was thrown, the invariant is kept. *)
Definition extends (st st' : state) : Prop :=
  (∀ u p, imageLoadCache st !! u = Some p → imageLoadCache st' !! u = Some p) ∧
  (∀ p ps, promises st !! p = Some ps → ps ≠ Pending → promises st' !! p = Some ps) ∧
  (inv st → inv st') ∧
  uncaught st' = uncaught st.

Ltac split_extends := unfold extends; split_and!; simpl; try done.

Lemma extends_refl st : extends st st.
Proof. split_extends. Qed.

Lemma extends_trans a b c : extends a b → extends b c → extends a c.
Proof.
  intros (H1 & H2 & H3 & H4) (K1 & K2 & K3 & K4).
  split_extends; eauto. congruence.
Qed.

Lemma inv_init : inv init.
Proof.
  split; [constructor |].
  intros u; simpl. rewrite lookup_empty. split.
  - by intros ?%elem_of_nil.
  - by intros [? ?].
Qed.

Lemma loadImage_hit url st p :
  imageLoadCache st !! url = Some p → loadImage url st = (p, st).
Proof. intros H. unfold loadImage. by rewrite H. Qed.

Lemma loadImage_extends url st : extends st (loadImage url st).2.
Proof.
  unfold loadImage.
  destruct (imageLoadCache st !! url) as [p|] eqn:E; [apply extends_refl |].
  split_extends.
  - intros u p Hu. rewrite lookup_insert_ne; [done | congruence].
  - intros p ps Hp _. by apply lookup_app_l_Some.
  - intros [Hnd Hdom]. split; simpl.
    + apply NoDup_app. split; [done |]. split; [| apply NoDup_singleton].
      intros x Hx ->%list_elem_of_singleton.
      apply Hdom in Hx. rewrite E in Hx. by destruct Hx.
    + intros u. rewrite elem_of_app, list_elem_of_singleton, Hdom.
      destruct (decide (u = url)) as [-> | Hne].
      * rewrite lookup_insert_eq. split; eauto.
      * rewrite lookup_insert_ne by congruence. split; [by intros [? | ?] | by left].
Qed.

Lemma park_extends w st : extends st (park w st).
Proof. split_extends. Qed.

Lemma afterAwait_extends k o st :
  (∀ s, extends s (k s)) → extends st (afterAwait k o st).
Proof. intros Hk. unfold afterAwait. destruct o; simpl; apply Hk. Qed.

Lemma advance_extends urls : ∀ st, extends st (advance urls st).
Proof.
  induction urls as [| u rest IH]; intros st; simpl; [apply extends_refl |].
  pose proof (loadImage_extends u st) as Hl.
  destruct (loadImage u st) as [p st1]; simpl in Hl.
  eapply extends_trans; [exact Hl |].
  destruct (promises st1 !! p) as [ps|]; [| apply park_extends].
  destruct (awaited u ps); [| apply park_extends].
  by apply afterAwait_extends.
Qed.

Lemma fold_left_extends {A} (f : state → A → state) l :
  (∀ s a, extends s (f s a)) → ∀ st, extends st (fold_left f l st).
Proof.
  intros Hf. induction l as [| a l IH]; intros st; simpl; [apply extends_refl |].
  eapply extends_trans; [apply Hf | apply IH].
Qed.

Lemma settle_extends p ok st : extends st (settle p ok st).
Proof.
  unfold settle.
  destruct (promises st !! p) as [[| |]|] eqn:E; try apply extends_refl.
  eapply extends_trans; [| apply fold_left_extends].
  - split_extends.
    intros q ps Hq Hps. rewrite list_lookup_insert_ne; [done |].
    intros ->. congruence.
  - intros s w. destruct (awaited _ _); [| apply park_extends].
    apply afterAwait_extends, advance_extends.
Qed.

Lemma idle_extends k st : extends st (idle k st).
Proof.
  unfold idle. destruct (scheduled st !! k); [| apply extends_refl].
  eapply extends_trans; [| apply advance_extends]. split_extends.
Qed.

Lemma warmCache_extends urls limit st : extends st (warmCache urls limit st).
Proof.
  unfold warmCache. destruct (toWarm _ _ _); [apply extends_refl |]. split_extends.
Qed.

Lemma step_extends st e : extends st (step st e).
Proof.
  destruct e; simpl.
  - apply loadImage_extends.
  - apply warmCache_extends.
  - apply idle_extends.
  - apply settle_extends.
Qed.

Lemma run_extends tr : ∀ st, extends st (run tr st).
Proof. intros st. apply fold_left_extends. intros s a. apply step_extends. Qed.

Lemma run_app tr1 tr2 st : run (tr1 ++ tr2) st = run tr2 (run tr1 st).
Proof. apply fold_left_app. Qed.

(** *** One warm-up followed through the event loop *)



Lemma toWarm_elem urls limit st u :
  0 ≤ limit → u ∈ toWarm urls limit st → u ∈ urls ∧ imageLoadCache st !! u = None.
Proof.
  intros Hl. unfold toWarm, JS.slice0.
  destruct (Z.ltb_spec limit 0) as [? | _]; [lia |].
  intros [Hc Hu]%list_elem_of_filter. split; [| done].
  eapply elem_of_sublist; [exact Hu | apply sublist_take].
Qed.


Lemma loadImage_queues url st :
  scheduled (loadImage url st).2 = scheduled st ∧
  parked (loadImage url st).2 = parked st.
Proof.
  unfold loadImage. by destruct (imageLoadCache st !! url).
Qed.





(** A rejected load does not end the loop that waited for it: the
    [catch {}] swallows the exception and the next url is visited. *)
Lemma rejected_load_resumes p u rest st :
  promises st !! p = Some Pending →
  parked st = [mkWaiter p u rest] →
  settle p false st =
    advance rest (mkState (imageLoadCache st) (<[p := Rejected]> (promises st))
                          (started st) (scheduled st) [] (uncaught st)).
Proof.
  intros Hp Hw. unfold settle. rewrite Hp, Hw.
  rewrite !filter_cons, !filter_nil. simpl.
  rewrite decide_True by done. rewrite decide_False by tauto. reflexivity.
Qed.

Example warm_after_failure :
  let st := run [EvWarmCache ["a.png"; "b.png"; "c.png"] (Some 2);
                 EvIdle 0; EvImageSettles 0 false; EvImageSettles 1 true] init in
  started st = ["a.png"; "b.png"] ∧
  promises st = [Rejected; Resolved] ∧
  parked st = [] ∧ uncaught st = [].
Proof. vm_compute. done. Qed.

Example failed_load_not_retried :
  let st := run [EvLoadImage "a.png"; EvImageSettles 0 false; EvLoadImage "a.png";
                 EvWarmCache ["a.png"] None; EvIdle 0] init in
  started st = ["a.png"] ∧ promises st = [Rejected] ∧
  loadImage "a.png" st = (0%nat, st).
Proof. vm_compute. done. Qed.

(** C6: every url is loaded at most once in a session, whatever mix of
    loadImage calls, warm-ups, idle callbacks and image completions
    happens: the load log never holds a url twice.  A later call of
    loadImage with the same url returns the promise of the first call
    and starts nothing, and a promise that was rejected stays rejected
    (nothing in map.js removes or replaces a memo entry). *)
Theorem loadImage_at_most_once (tr1 tr2 : list event) (url : string) :
  let st := run tr1 init in
  let p := (loadImage url st).1 in
  let st2 := run tr2 (loadImage url st).2 in
  NoDup (started st2) ∧
  loadImage url st2 = (p, st2) ∧
  (promises (loadImage url st).2 !! p = Some Rejected →
   promises st2 !! p = Some Rejected).
Proof.
  intros st p st2.
  pose proof (run_extends tr1 init) as (_ & _ & Hinv1 & _).
  pose proof (loadImage_extends url st) as (_ & _ & Hinv2 & _).
  pose proof (run_extends tr2 (loadImage url st).2) as (Hc & Hp & Hinv3 & _).
  split_and!.
  - apply Hinv3, Hinv2, Hinv1, inv_init.
  - apply loadImage_hit, Hc. subst p. unfold loadImage.
    destruct (imageLoadCache st !! url) eqn:E; simpl; [done |].
    by rewrite lookup_insert_eq.
  - intros Hr. by apply Hp.
Qed.


End ImageCache.

(** ** The highlight state: [highlightMarker] (map.js 71-88) *)

Module Highlight.

(** Markers are named by the number Leaflet stamps on them.  [icons]
    holds the class list of a marker's icon element; a marker that is
    not on the map has no element ([getElement()] is undefined).
    [listeners] are the elements with a pending one-shot
    [animationend] listener: only the older revision
    [src/unnamed/part_000] registers one. *)
Record state := mkState {
  currentHighlightedMarker : option nat;
  icons : gmap nat (list string);
  listeners : gset nat
}.

Definition highlighted : string := "highlighted".

(** [classList.remove(c)] and [classList.add(c)] *)
Definition classRemove (c : string) (cl : list string) : list string :=
  filter (λ x, x ≠ c) cl.

Definition classAdd (c : string) (cl : list string) : list string :=
  if decide (c ∈ cl) then cl else cl ++ [c].

(** [highlightMarker(marker)]: first the class is taken from the
    element of the marker selected before (lines 75-78), then the
    marker becomes the selected one and its own element gets the class
    anew (lines 79-87).  [transient] is false for [src/map.js] (the
    highlight stays) and true for [src/unnamed/part_000] (a listener
    removes it when the animation ends). *)
Definition clearPrevious (marker : nat) (st : state) : gmap nat (list string) :=
  match currentHighlightedMarker st with
  | Some prev =>
      if decide (prev ≠ marker)
      then alter (classRemove highlighted) prev (icons st)
      else icons st
  | None => icons st
  end.

Definition highlightMarker (transient : bool) (marker : nat) (st : state) : state :=
  let icons1 := clearPrevious marker st in
  mkState (Some marker)
          (alter (λ cl, classAdd highlighted (classRemove highlighted cl)) marker icons1)
          (if transient && bool_decide (is_Some (icons1 !! marker))
           then {[marker]} ∪ listeners st else listeners st).

(** The [animationend] event on the element of [m] *)
Definition animationEnd (m : nat) (st : state) : state :=
  if decide (m ∈ listeners st)
  then mkState (currentHighlightedMarker st)
               (alter (classRemove highlighted) m (icons st))
               (listeners st ∖ {[m]})
  else st.

(** The marker leaves the map (its element is dropped), or is put on
    the map (a new element with the icon's own classes). *)
Definition detach (m : nat) (st : state) : state :=
  mkState (currentHighlightedMarker st) (delete m (icons st)) (listeners st ∖ {[m]}).

Definition attach (m : nat) (st : state) : state :=
  match icons st !! m with
  | Some _ => st
  | None => mkState (currentHighlightedMarker st)
                    (<[m := ["leaflet-marker-icon"; "custom-div-icon"]]> (icons st))
                    (listeners st)
  end.

Inductive event :=
| Select (m : nat)
| AnimationEnd (m : nat)
| Detach (m : nat)
| Attach (m : nat).

Definition step (transient : bool) (st : state) (e : event) : state :=
  match e with
  | Select m => highlightMarker transient m st
  | AnimationEnd m => animationEnd m st
  | Detach m => detach m st
  | Attach m => attach m st
  end.

Definition run (transient : bool) (tr : list event) (st : state) : state :=
  fold_left (step transient) tr st.

(** The marker shows the emphasis: its element carries the class. *)
Definition emphasised (m : nat) (st : state) : Prop :=
  ∃ cl, icons st !! m = Some cl ∧ highlighted ∈ cl.

(** No element carries the class and nothing is selected. *)
Definition fresh (st : state) : Prop :=
  currentHighlightedMarker st = None ∧ ∀ m, ¬ emphasised m st.

(** At most the selected marker is emphasised. *)
Definition atMostCurrent (st : state) : Prop :=
  ∀ m, emphasised m st → currentHighlightedMarker st = Some m.

Lemma classRemove_spec c cl x : x ∈ classRemove c cl ↔ x ≠ c ∧ x ∈ cl.
Proof. unfold classRemove. by rewrite list_elem_of_filter. Qed.

Lemma classAdd_spec c cl x : x ∈ classAdd c cl ↔ x = c ∨ x ∈ cl.
Proof.
  unfold classAdd. destruct (decide (c ∈ cl)) as [Hin | Hnin].
  - split; [by right | by intros [-> | ?]].
  - rewrite elem_of_app, list_elem_of_singleton. tauto.
Qed.

Lemma emphasised_alter_remove (m k : nat) (ic : gmap nat (list string)) :
  (∃ cl, alter (classRemove highlighted) k ic !! m = Some cl ∧ highlighted ∈ cl) →
  m ≠ k ∧ ∃ cl, ic !! m = Some cl ∧ highlighted ∈ cl.
Proof.
  intros (cl & Hl & Hin). destruct (decide (m = k)) as [-> | Hne].
  - rewrite lookup_alter_eq in Hl.
    destruct (ic !! k) as [cl0|]; simplify_eq/=.
    apply classRemove_spec in Hin. by destruct Hin.
  - rewrite lookup_alter_ne in Hl by done. eauto.
Qed.

(** After the first half of [highlightMarker] no other marker than the
    one being selected can still carry the class. *)
Lemma clearPrevious_only h st m :
  atMostCurrent st →
  (∃ cl, clearPrevious h st !! m = Some cl ∧ highlighted ∈ cl) → m = h.
Proof.
  intros Hinv He. unfold clearPrevious in He.
  destruct (currentHighlightedMarker st) as [prev|] eqn:Ec.
  - destruct (decide (prev ≠ h)) as [Hp | Hp].
    + apply emphasised_alter_remove in He as [Hmp He].
      apply Hinv in He. congruence.
    + apply Hinv in He. apply dec_stable in Hp. congruence.
  - apply Hinv in He. congruence.
Qed.

Lemma highlightMarker_atMostCurrent transient h st :
  atMostCurrent st → atMostCurrent (highlightMarker transient h st).
Proof.
  intros Hinv m (cl & Hl & Hin). simpl in *.
  destruct (decide (m = h)) as [-> | Hne]; [done |].
  rewrite lookup_alter_ne in Hl by done.
  destruct Hne. eapply clearPrevious_only; eauto.
Qed.

Lemma step_atMostCurrent transient st e :
  atMostCurrent st → atMostCurrent (step transient st e).
Proof.
  intros Hinv. destruct e as [h | m | m | m]; simpl.
  - by apply highlightMarker_atMostCurrent.
  - unfold animationEnd. destruct (decide _); [| done].
    intros k He. simpl. apply Hinv.
    by destruct (emphasised_alter_remove k m (icons st) He).
  - intros k (cl & Hl & Hin). simpl in *. apply Hinv.
    destruct (decide (k = m)) as [-> | Hne].
    + by rewrite lookup_delete_eq in Hl.
    + rewrite lookup_delete_ne in Hl by done. by exists cl.
  - unfold attach. destruct (icons st !! m) eqn:E; [done |].
    intros k (cl & Hl & Hin). simpl in *. apply Hinv.
    destruct (decide (k = m)) as [-> | Hne].
    + rewrite lookup_insert_eq in Hl. simplify_eq.
      apply list_elem_of_In in Hin. simpl in Hin.
      unfold highlighted in Hin. by destruct Hin as [? | [? | []]].
    + rewrite lookup_insert_ne in Hl by done. by exists cl.
Qed.

Lemma run_atMostCurrent transient tr : ∀ st,
  atMostCurrent st → atMostCurrent (run transient tr st).
Proof.
  induction tr as [| e tr IH]; intros st Hinv; simpl; [done |].
  apply IH. by apply step_atMostCurrent.
Qed.

Lemma fresh_atMostCurrent st : fresh st → atMostCurrent st.
Proof. intros [_ Hno] m He. by destruct (Hno m). Qed.

Lemma highlightMarker_emphasises transient h st :
  is_Some (icons st !! h) → emphasised h (highlightMarker transient h st).
Proof.
  intros [cl Hcl]. unfold emphasised. simpl.
  rewrite lookup_alter_eq.
  assert (∃ cl1, clearPrevious h st !! h = Some cl1) as [cl1 ->].
  { unfold clearPrevious.
    destruct (currentHighlightedMarker st) as [prev|]; [| eauto].
    destruct (decide (prev ≠ h)); [| eauto].
    rewrite lookup_alter_ne by done. eauto. }
  simpl. eexists. split; [done |]. apply classAdd_spec. by left.
Qed.

Lemma step_keeps_elements transient st e m :
  match e with Select _ => True | _ => False end →
  is_Some (icons st !! m) → is_Some (icons (step transient st e) !! m).
Proof.
  destruct e as [h | | |]; try done. intros _ Hm. simpl.
  rewrite lookup_alter_is_Some. unfold clearPrevious.
  destruct (currentHighlightedMarker st) as [prev|]; [| done].
  destruct (decide (prev ≠ h)); [| done]. by rewrite lookup_alter_is_Some.
Qed.

Lemma run_selects_keep_elements transient hs m : ∀ st,
  is_Some (icons st !! m) →
  is_Some (icons (run transient (map Select hs) st) !! m).
Proof.
  induction hs as [| h hs IH]; intros st Hm; simpl; [done |].
  apply IH. by apply (step_keeps_elements transient st (Select h)).
Qed.

Example highlight_three :
  let st0 := mkState None {[ 1%nat := ["custom-div-icon"];
                             2%nat := ["custom-div-icon"] ]} ∅ in
  let st := run false [Select 1%nat; Select 2%nat; Select 2%nat] st0 in
  currentHighlightedMarker st = Some 2%nat ∧
  icons st !! 1%nat = Some ["custom-div-icon"] ∧
  icons st !! 2%nat = Some ["custom-div-icon"; "highlighted"].
Proof. vm_compute. done. Qed.

(** C2: starting with no highlight, after select(h1), ..., select(hn)
    the selected marker is hn, every marker whose element carries the
    highlight class is hn (at most one), and hn does carry it when it
    has an element; inside the last call, once the marker selected
    before has been cleared, no marker other than hn carries the class
    any more.  This holds for both revisions of highlightMarker. *)
Theorem highlight_at_most_last (transient : bool) (hs : list nat) (hn : nat) (st0 : state) :
  fresh st0 →
  let before := run transient (map Select hs) st0 in
  let st := run transient (map Select (hs ++ [hn])) st0 in
  currentHighlightedMarker st = Some hn ∧
  (∀ m, emphasised m st → m = hn) ∧
  (is_Some (icons st0 !! hn) → emphasised hn st) ∧
  (∀ m cl, clearPrevious hn before !! m = Some cl → highlighted ∈ cl → m = hn).
Proof.
  intros Hfresh before st.
  assert (st = highlightMarker transient hn before) as Hst.
  { subst st before. unfold run. by rewrite map_app, fold_left_app. }
  assert (atMostCurrent before) as Hb.
  { by apply run_atMostCurrent, fresh_atMostCurrent. }
  split_and!.
  - by rewrite Hst.
  - intros m He.
    assert (atMostCurrent st) as Hinv
      by (rewrite Hst; by apply highlightMarker_atMostCurrent).
    apply Hinv in He. rewrite Hst in He. simpl in He. congruence.
  - intros Hel. rewrite Hst. apply highlightMarker_emphasises.
    by apply run_selects_keep_elements.
  - intros m cl Hl Hin. eapply clearPrevious_only; eauto.
Qed.

Lemma highlight_at_most_last_witness :
  let st0 := mkState None {[ 1%nat := ["custom-div-icon"];
                             2%nat := ["custom-div-icon"] ]} ∅ in
  let before := run false (map Select [1%nat; 2%nat]) st0 in
  let st := run false (map Select ([1%nat; 2%nat] ++ [1%nat])) st0 in
  currentHighlightedMarker st = Some 1%nat ∧
  (∀ m, emphasised m st → m = 1%nat) ∧
  (is_Some (icons st0 !! 1%nat) → emphasised 1%nat st) ∧
  (∀ m cl, clearPrevious 1%nat before !! m = Some cl → highlighted ∈ cl → m = 1%nat).
Proof.
  apply (highlight_at_most_last false [1%nat; 2%nat] 1%nat).
  split; [reflexivity |].
  intros m (cl & Hl & Hin). simpl in Hl.
  destruct (decide (m = 1%nat)) as [-> | H1].
  - vm_compute in Hl. simplify_eq.
    apply list_elem_of_In in Hin. simpl in Hin. by destruct Hin as [? | []].
  - rewrite lookup_insert_ne in Hl by done.
    destruct (decide (m = 2%nat)) as [-> | H2].
    + vm_compute in Hl. simplify_eq.
      apply list_elem_of_In in Hin. simpl in Hin. by destruct Hin as [? | []].
    + rewrite lookup_singleton_ne in Hl by done. discriminate.
Defined.

(** The same bound with markers leaving and entering the map and
    animations ending in between the selections. *)
Lemma highlight_any_events (transient : bool) (tr : list event) (st0 : state) (m : nat) :
  fresh st0 →
  emphasised m (run transient tr st0) →
  currentHighlightedMarker (run transient tr st0) = Some m.
Proof.
  intros Hf. by apply run_atMostCurrent, fresh_atMostCurrent.
Qed.

End Highlight.

(** ** The data model and its loader: [loadData], [loadCategories]
       (map.js 90-206) *)

Module Loader.

(** A Leaflet marker: its stamp, position and title option. *)
Record Marker := mkMarker {
  stamp : nat;
  latlng : JS.number * JS.number;
  title : string
}.

(** A location entry of the document.  [marker] is the back-reference
    that [loadCategories] stores into the entry (line 168). *)
Record location := mkLocation {
  lat : string;
  lng : string;
  name : string;
  info : option string;
  img : option string;
  relatedItems : option (list string);
  marker : option Marker
}.

(** A category; [locations] is [None] when the property is missing or
    is not an array. *)
Record categoryData := mkCategory {
  color : string;
  locations : option (list location)
}.

(** The document: category name to category, in key order. *)
Definition document : Type := list (string * categoryData).

(** What a [fetch] of the data file can end in. *)
Inductive response :=
| NetworkError                 (* the fetch promise rejects *)
| HttpError                    (* [response.ok] is false *)
| BadJson                      (* [response.json()] rejects *)
| Json (data : document).

Record state := mkState {
  categories : document;
  markersGroup : gmap nat Marker;          (* layers of the group, by stamp *)
  nextStamp : nat;
  sidebar : list (string * list string);   (* accordion: category, its list items *)
  fetches : list string;                   (* data files being fetched, oldest first *)
  console : list string                    (* console.error lines *)
}.

Definition init : state := mkState [] ∅ 0 [] [] [].

Section Surface.

(** Whether [L.marker([lat, lng], ...)] accepts the coordinates; when it
    does not, the call throws.  Leaflet is not part of the repository,
    so its choice is left open. *)
Variable validLatLng : JS.number → JS.number → bool.

(** The body of [categoryData.locations.forEach] (lines 162-186) over
    the remaining entries: each entry gets a marker, added to the
    group and stored in the entry.  An exception ends the iteration;
    what was placed before stays placed. *)
Fixpoint placeLocations (locs : list location) (st : state)
  : state * list location * option string :=
  match locs with
  | [] => (st, [], None)
  | l :: rest =>
      let la := JS.parseFloat (lat l) in
      let ln := JS.parseFloat (lng l) in
      if validLatLng la ln then
        let m := mkMarker (nextStamp st) (la, ln) (name l) in
        let st1 := mkState (categories st) (<[stamp m := m]> (markersGroup st))
                           (S (nextStamp st)) (sidebar st) (fetches st) (console st) in
        let l1 := mkLocation (lat l) (lng l) (name l) (info l) (img l)
                             (relatedItems l) (Some m) in
        let '(st2, rest1, e) := placeLocations rest st1 in
        (st2, l1 :: rest1, e)
      else (st, l :: rest, Some "Invalid LatLng object")
  end.

(** The loop [for (const category in categories)] of [loadCategories];
    [fragment] collects the accordion built so far. *)
Fixpoint placeCategories (cats : document) (fragment : list (string * list string))
    (st : state) : state * document * list (string * list string) * option string :=
  match cats with
  | [] => (st, [], fragment, None)
  | (category, categoryData) :: rest =>
      match locations categoryData with
      | None =>
          (st, cats, fragment,
           Some "Cannot read properties of undefined (reading 'forEach')")
      | Some locs =>
          let '(st1, locs1, e) := placeLocations locs st in
          let c1 := (category, mkCategory (color categoryData) (Some locs1)) in
          match e with
          | Some err => (st1, c1 :: rest, fragment, Some err)
          | None =>
              let '(st2, rest1, fr, e2) :=
                placeCategories rest (fragment ++ [(category, map name locs)]) st1 in
              (st2, c1 :: rest1, fr, e2)
          end
      end
  end.

(** [loadCategories(categoryIcons)]: the fragment reaches the sidebar
    only when the loop ran to its end (line 205). *)
Definition loadCategories (st : state) : state * option string :=
  let '(st1, cats1, fragment, e) := placeCategories (categories st) [] st in
  match e with
  | Some err =>
      (mkState cats1 (markersGroup st1) (nextStamp st1) (sidebar st1)
               (fetches st1) (console st1), Some err)
  | None =>
      (mkState cats1 (markersGroup st1) (nextStamp st1) (sidebar st1 ++ fragment)
               (fetches st1) (console st1), None)
  end.

Definition consoleError (msg : string) (st : state) : state :=
  mkState (categories st) (markersGroup st) (nextStamp st) (sidebar st)
          (fetches st) (console st ++ [msg]).

(** [loadData(fileName)], the part that runs at the call: the group
    and the sidebar are emptied and the fetch is started. *)
Definition loadData (fileName : string) (st : state) : state :=
  mkState (categories st) ∅ (nextStamp st) [] (fetches st ++ [fileName]) (console st).

(** The [then]/[catch] chain of [loadData] (lines 102-125), run when
    the fetch has an answer. *)
Definition fetchSettled (r : response) (st : state) : state :=
  match r with
  | Json data =>
      let st1 := mkState data (markersGroup st) (nextStamp st) (sidebar st)
                         (fetches st) (console st) in
      match loadCategories st1 with
      | (st2, None) => st2
      | (st2, Some err) => consoleError ("Error loading JSON file: " ++ err) st2
      end
  | _ => consoleError "Error loading JSON file" st
  end.

Inductive event :=
| EvLoadData (fileName : string)
| EvFetchSettles (k : nat) (r : response).    (* the [k]-th pending fetch answers *)

Definition step (st : state) (e : event) : state :=
  match e with
  | EvLoadData f => loadData f st
  | EvFetchSettles k r =>
      match fetches st !! k with
      | Some _ =>
          fetchSettled r (mkState (categories st) (markersGroup st) (nextStamp st)
                                  (sidebar st) (delete k (fetches st)) (console st))
      | None => st
      end
  end.

Definition run (tr : list event) (st : state) : state := fold_left step tr st.

End Surface.

(** The markers a document asks for, in document order: position and
    title of every entry. *)
Definition wanted (d : document) : list (JS.number * JS.number * string) :=
  flat_map (λ c, match locations c.2 with
                 | Some locs => map (λ l, (JS.parseFloat (lat l), JS.parseFloat (lng l), name l)) locs
                 | None => []
                 end) d.

(** Position and title of the markers on the group, in stamp order. *)
Definition placed (st : state) : list (JS.number * JS.number * string) :=
  omap (λ k, (λ m, (latlng m, title m)) <$> markersGroup st !! k)
       (seq 0 (nextStamp st)).

(** Two surfaces: one refuses NaN coordinates (as a constructor that
    validates its argument would), one accepts whatever it is given. *)
Definition strict (la ln : JS.number) : bool := negb (JS.isNaN la || JS.isNaN ln).
Definition lenient (la ln : JS.number) : bool := true.

(** *** Stamps only grow *)

(** [st'] comes after [st]: markers were only added, under stamps that
    were still free in [st]. *)
Definition grows (st st' : state) : Prop :=
  (nextStamp st ≤ nextStamp st')%nat ∧
  ∀ k, (k < nextStamp st ∨ nextStamp st' ≤ k)%nat →
       markersGroup st' !! k = markersGroup st !! k.

(** Every marker on the group has a stamp that was handed out. *)
Definition stamped (st : state) : Prop :=
  ∀ k, is_Some (markersGroup st !! k) → (k < nextStamp st)%nat.

Lemma grows_refl st : grows st st.
Proof. by split. Qed.

Lemma grows_trans a b c : grows a b → grows b c → grows a c.
Proof.
  intros [H1 H2] [K1 K2]. split; [lia |].
  intros k Hk. rewrite K2 by lia. apply H2. lia.
Qed.

Lemma grows_stamped st st' : grows st st' → stamped st → stamped st'.
Proof.
  intros [H1 H2] Hs k Hk.
  destruct (decide (k < nextStamp st')%nat) as [| Hge]; [done |].
  rewrite H2 in Hk by lia. apply Hs in Hk. lia.
Qed.

Lemma grows_keeps st st' k m :
  grows st st' → stamped st →
  markersGroup st !! k = Some m → markersGroup st' !! k = Some m.
Proof.
  intros [_ H2] Hs Hk. rewrite H2; [done |]. left. apply Hs. by rewrite Hk.
Qed.

Section SurfaceFacts.
Variable validLatLng : JS.number → JS.number → bool.

Lemma placeLocations_grows locs : ∀ st,
  grows st (placeLocations validLatLng locs st).1.1.
Proof.
  induction locs as [| l rest IH]; intros st; simpl; [apply grows_refl |].
  destruct (validLatLng _ _); simpl; [| apply grows_refl].
  match goal with |- context [placeLocations _ rest ?s] =>
    specialize (IH s); destruct (placeLocations validLatLng rest s) as [[st2 r1] e]
  end.
  simpl in *. eapply grows_trans; [| exact IH].
  split; simpl; [lia |]. intros k Hk. apply lookup_insert_ne. lia.
Qed.

Lemma placeCategories_grows cats : ∀ fragment st,
  grows st (placeCategories validLatLng cats fragment st).1.1.1.
Proof.
  induction cats as [| [c d] rest IH]; intros fragment st; simpl; [apply grows_refl |].
  destruct (locations d) as [locs|]; simpl; [| apply grows_refl].
  pose proof (placeLocations_grows locs st) as Hl.
  destruct (placeLocations validLatLng locs st) as [[st1 locs1] e]. simpl in Hl.
  destruct e as [err|]; simpl; [done |].
  match goal with |- context [placeCategories _ rest ?f ?s] =>
    specialize (IH f s); destruct (placeCategories validLatLng rest f s) as [[[st2 r1] fr] e2]
  end.
  simpl in *. by eapply grows_trans.
Qed.

Lemma loadCategories_grows st : grows st (loadCategories validLatLng st).1.
Proof.
  unfold loadCategories.
  pose proof (placeCategories_grows (categories st) [] st) as H.
  destruct (placeCategories _ _ _ _) as [[[st1 c1] fr] e]. simpl in H.
  by destruct e.
Qed.

Lemma fetchSettled_grows r st : grows st (fetchSettled validLatLng r st).
Proof.
  destruct r; simpl; try (by split).
  match goal with |- context [loadCategories _ ?s] =>
    pose proof (loadCategories_grows s) as H; destruct (loadCategories validLatLng s) as [st2 e]
  end.
  simpl in H. destruct e; simpl; exact H.
Qed.

(** An entry the surface refuses ends the iteration: it and every
    entry after it are left as they were. *)
Lemma placeLocations_refused l rest st :
  validLatLng (JS.parseFloat (lat l)) (JS.parseFloat (lng l)) = false →
  placeLocations validLatLng (l :: rest) st = (st, l :: rest, Some "Invalid LatLng object").
Proof. intros H. simpl. by rewrite H. Qed.

(** An entry the surface accepts is on the group when the iteration
    is over, however it ends. *)
Lemma placeLocations_accepted l rest st :
  validLatLng (JS.parseFloat (lat l)) (JS.parseFloat (lng l)) = true →
  markersGroup (placeLocations validLatLng (l :: rest) st).1.1 !! nextStamp st =
    Some (mkMarker (nextStamp st) (JS.parseFloat (lat l), JS.parseFloat (lng l)) (name l)).
Proof.
  intros H. simpl. rewrite H.
  match goal with |- context [placeLocations _ rest ?s] =>
    pose proof (placeLocations_grows rest s) as [_ Hk];
    destruct (placeLocations validLatLng rest s) as [[st2 r1] e]
  end.
  simpl in *. rewrite Hk by (left; lia). apply lookup_insert_eq.
Qed.

Lemma placeLocations_app pre rest st :
  placeLocations validLatLng (pre ++ rest) st =
    let '(st1, pre1, e) := placeLocations validLatLng pre st in
    match e with
    | Some err => (st1, pre1 ++ rest, Some err)
    | None =>
        let '(st2, rest1, e2) := placeLocations validLatLng rest st1 in
        (st2, pre1 ++ rest1, e2)
    end.
Proof.
  revert st. induction pre as [| l pre IH]; intros st; simpl.
  { by destruct (placeLocations validLatLng rest st) as [[? ?] ?]. }
  destruct (validLatLng _ _); simpl; [| done].
  rewrite IH.
  destruct (placeLocations validLatLng pre _) as [[st1 pre1] e].
  destruct e; [done |].
  by destruct (placeLocations validLatLng rest st1) as [[? ?] ?].
Qed.

End SurfaceFacts.

(** *** A location entry with unparseable coordinates *)

Definition goodEntry : location := mkLocation "20" "30" "Good" None None None None.
Definition badEntry : location := mkLocation "abc" "10" "Bad" None None None None.

(** The document
    [{"Heists": {"color": "red", "locations": [Bad, Good]}}] *)
Definition malformedDoc : document :=
  [("Heists", mkCategory "red" (Some [badEntry; goodEntry]))].

Lemma badEntry_coords :
  JS.parseFloat (lat badEntry) = JS.NaN ∧ JS.parseFloat (lng badEntry) = JS.Num 10.
Proof. split; vm_compute; reflexivity. Qed.

Lemma placeLocations_length validLatLng locs : ∀ st,
  length (placeLocations validLatLng locs st).1.2 = length locs.
Proof.
  induction locs as [| l rest IH]; intros st; simpl; [done |].
  destruct (validLatLng _ _); simpl; [| done].
  match goal with |- context [placeLocations _ rest ?s] =>
    specialize (IH s); destruct (placeLocations validLatLng rest s) as [[st2 r1] e]
  end.
  simpl in *. by rewrite IH.
Qed.

(** Whatever the surface does with NaN, the bad entry is not skipped:
    either it gets a marker like every other entry, or the exception
    of the surface ends the iteration and no later entry of the
    category is visited. *)
Lemma placeLocations_bad_entry validLatLng (pre post : list location) (st : state) :
  let r := placeLocations validLatLng (pre ++ badEntry :: post) st in
  (∃ k m, markersGroup r.1.1 !! k = Some m ∧
          title m = "Bad" ∧ latlng m = (JS.NaN, JS.Num 10)) ∨
  (is_Some r.2 ∧
   r.1.1 = (placeLocations validLatLng pre st).1.1 ∧
   drop (length pre) r.1.2 = badEntry :: post).
Proof.
  intros r. subst r. rewrite placeLocations_app.
  pose proof (placeLocations_length validLatLng pre st) as Hlen.
  destruct (placeLocations validLatLng pre st) as [[st1 pre1] e]. simpl in Hlen.
  destruct e as [err|].
  { right. simpl. split_and!; [by eexists | done |]. by rewrite <- Hlen, drop_app_length. }
  destruct badEntry_coords as [Hla Hln].
  destruct (validLatLng JS.NaN (JS.Num 10)) eqn:Ev.
  - left. pose proof (placeLocations_accepted validLatLng badEntry post st1) as Ha.
    rewrite Hla, Hln in Ha. specialize (Ha Ev).
    destruct (placeLocations validLatLng (badEntry :: post) st1) as [[st2 r2] e2].
    simpl in *. eauto.
  - right. rewrite placeLocations_refused by (by rewrite Hla, Hln).
    simpl. split_and!; [by eexists | done |]. by rewrite <- Hlen, drop_app_length.
Qed.

(** One load of a document with a single category, from the start. *)
Lemma run_single_category validLatLng f c col locs :
  run validLatLng [EvLoadData f; EvFetchSettles 0 (Json [(c, mkCategory col (Some locs))])] init =
    let d := [(c, mkCategory col (Some locs))] in
    let '(st1, locs1, e) := placeLocations validLatLng locs (mkState d ∅ 0 [] [] []) in
    let cats1 := [(c, mkCategory col (Some locs1))] in
    match e with
    | Some err =>
        consoleError ("Error loading JSON file: " ++ err)
          (mkState cats1 (markersGroup st1) (nextStamp st1) (sidebar st1)
                   (fetches st1) (console st1))
    | None =>
        mkState cats1 (markersGroup st1) (nextStamp st1)
                (sidebar st1 ++ [(c, map name locs)]) (fetches st1) (console st1)
    end.
Proof.
  unfold run. cbn [fold_left step loadData fetches init app lookup list_lookup].
  cbn [delete list_delete]. unfold fetchSettled, loadCategories.
  cbn [categories placeCategories locations color].
  destruct (placeLocations validLatLng locs _) as [[st1 locs1] [err|]]; reflexivity.
Qed.

Example malformed_strict :
  let st := run strict [EvLoadData "categories.json";
                        EvFetchSettles 0 (Json malformedDoc)] init in
  placed st = [] ∧ sidebar st = [] ∧
  console st = ["Error loading JSON file: Invalid LatLng object"].
Proof. vm_compute. done. Qed.

Example malformed_lenient :
  let st := run lenient [EvLoadData "categories.json";
                         EvFetchSettles 0 (Json malformedDoc)] init in
  placed st = [(JS.NaN, JS.Num 10, "Bad"); (JS.Num 20, JS.Num 30, "Good")].
Proof. vm_compute. done. Qed.

(** C1 (the code does not do this): loading [malformedDoc], whose first
    entry has [lat: "abc"], never skips that entry.  With a surface
    that accepts NaN the entry gets a marker at (NaN, 10); with one
    that throws, the exception ends [loadCategories]: the sibling
    "Good" gets no marker, the sidebar stays empty and the error is
    logged. *)
Theorem malformed_entry_not_skipped (validLatLng : JS.number → JS.number → bool) :
  let st := run validLatLng [EvLoadData "categories.json";
                             EvFetchSettles 0 (Json malformedDoc)] init in
  (∃ m, markersGroup st !! 0%nat = Some m ∧
        title m = "Bad" ∧ latlng m = (JS.NaN, JS.Num 10)) ∨
  (markersGroup st = ∅ ∧ sidebar st = [] ∧
   console st = ["Error loading JSON file: Invalid LatLng object"]).
Proof.
  intros st. subst st. unfold malformedDoc. rewrite run_single_category. cbv zeta.
  destruct badEntry_coords as [Hla Hln].
  destruct (validLatLng JS.NaN (JS.Num 10)) eqn:Ev.
  - left.
    pose proof (placeLocations_accepted validLatLng badEntry [goodEntry]
                  (mkState malformedDoc ∅ 0 [] [] [])) as Ha.
    rewrite Hla, Hln in Ha. specialize (Ha Ev). unfold malformedDoc in Ha.
    destruct (placeLocations validLatLng [badEntry; goodEntry] _) as [[st2 r2] e2].
    simpl in Ha. destruct e2; simpl; eauto.
  - right.
    rewrite placeLocations_refused by (by rewrite Hla, Hln).
    by simpl.
Qed.

(** *** Loading twice *)

Definition docA : document :=
  [("Alpha", mkCategory "red" (Some [mkLocation "1" "2" "Old" None None None None]))].
Definition docB : document :=
  [("Beta", mkCategory "blue" (Some [mkLocation "3" "4" "New" None None None None]))].

(** The answer of a fetch never takes a marker off the group: only the
    call of [loadData] clears it. *)
Lemma fetch_answer_keeps_markers validLatLng st k r :
  stamped st → markersGroup st ⊆ markersGroup (step validLatLng st (EvFetchSettles k r)).
Proof.
  intros Hs. simpl. destruct (fetches st !! k); [| done].
  apply map_subseteq_spec. intros i m Hi.
  eapply grows_keeps; [apply fetchSettled_grows | exact Hs | exact Hi].
Qed.

Lemma loadData_stamped f st : stamped (loadData f st).
Proof. intros k [m Hm]. simpl in Hm. by rewrite lookup_empty in Hm. Qed.

(** When the first load has its answer before the loader is called
    again, nothing of the first load is left: every marker on the
    group got its stamp after the second call. *)
Lemma reload_after_answer validLatLng fa fb ra rb st k :
  fetches st = [] →
  let stA := run validLatLng [EvLoadData fa; EvFetchSettles 0 ra] st in
  let st' := run validLatLng [EvLoadData fb; EvFetchSettles 0 rb] stA in
  is_Some (markersGroup st' !! k) → (nextStamp stA ≤ k)%nat.
Proof.
  intros Hf stA st' Hk.
  destruct (decide (nextStamp stA ≤ k)%nat) as [| Hlt]; [done | exfalso].
  subst st'. simpl in Hk.
  destruct (fetches stA ++ [fb]) as [| f0 fs]; simpl in Hk.
  { rewrite lookup_empty in Hk. by destruct Hk. }
  match type of Hk with is_Some (markersGroup (fetchSettled _ _ ?s) !! _) =>
    pose proof (fetchSettled_grows validLatLng rb s) as [_ Hg]
  end.
  rewrite Hg in Hk by (simpl; lia). simpl in Hk.
  rewrite lookup_empty in Hk. by destruct Hk.
Qed.

Example reload_after_answer_docs :
  let st := run strict [EvLoadData "a.json"; EvFetchSettles 0 (Json docA);
                        EvLoadData "b.json"; EvFetchSettles 0 (Json docB)] init in
  placed st = wanted docB ∧ sidebar st = [("Beta", ["New"])].
Proof. vm_compute. done. Qed.

(** C5 (the code does not do this): [loadData("a.json")] directly
    followed by [loadData("b.json")].  Both calls clear the group
    before either fetch has an answer, and the answers clear nothing:
    when both have arrived, in either order, the marker of the first
    document is on the group beside the marker of the second, and the
    sidebar lists both categories. *)
Theorem reload_back_to_back_leaks :
  let calls := [EvLoadData "a.json"; EvLoadData "b.json"] in
  let st1 := run strict (calls ++ [EvFetchSettles 0 (Json docA);
                                   EvFetchSettles 0 (Json docB)]) init in
  let st2 := run strict (calls ++ [EvFetchSettles 1 (Json docB);
                                   EvFetchSettles 0 (Json docA)]) init in
  wanted docB = [(JS.Num 3, JS.Num 4, "New")] ∧
  placed st1 = [(JS.Num 1, JS.Num 2, "Old"); (JS.Num 3, JS.Num 4, "New")] ∧
  placed st2 = [(JS.Num 3, JS.Num 4, "New"); (JS.Num 1, JS.Num 2, "Old")] ∧
  sidebar st1 = [("Alpha", ["Old"]); ("Beta", ["New"])] ∧
  map fst (categories st2) = ["Alpha"].
Proof. vm_compute. done. Qed.

End Loader.

(** ** The search box: the [input] handler (map.js 522-611) *)

Module Search.
Import Loader.

(** An element of the array [matches] (line 563) *)
Record found := mkFound {
  location_of : location;
  category_of : string;
  matchedRelatedItems : list string
}.

Section Engine.

(** The case tables of the engine that runs the page *)
Context {tables : JS.CaseTables}.

(** The body of the [forEach] of lines 549-566 for one entry; [query]
    is already trimmed and in lower case. *)
Definition matchLocation (query category : string) (l : location) : option found :=
  let nameMatches :=
    JS.truthy (name l) && JS.includes (JS.toLowerCase (name l)) query in
  let matchingRelatedItems :=
    List.filter (λ item, JS.includes (JS.toLowerCase item) query) <$> relatedItems l in
  let relatedItemMatches :=
    match matchingRelatedItems with
    | Some (_ :: _) => true
    | _ => false
    end in
  if nameMatches || relatedItemMatches
  then Some (mkFound l category (default [] matchingRelatedItems))
  else None.

(** The loop of lines 546-567 *)
Definition computeMatches (query : string) (cats : document) : list found :=
  flat_map (λ c, match locations c.2 with
                 | Some locs => omap (matchLocation query c.1) locs
                 | None => []
                 end) cats.

(** [searchInput.value.trim().toLowerCase()] (line 525) *)
Definition queryOf (value : string) : string := JS.toLowerCase (JS.trim value).

Definition searchMatches (value : string) (cats : document) : list found :=
  computeMatches (queryOf value) cats.

(** Every entry of the document, and every marker stored in one, in
    document order (categories without an array are passed over). *)
Definition allLocations (cats : document) : list location :=
  flat_map (λ c, default [] (locations c.2)) cats.

Definition allMarkers (cats : document) : list Marker :=
  omap marker (allLocations cats).

(** [markersGroup.addLayer] and [removeLayer]: layers are kept by stamp. *)
Definition addLayer (g : gmap nat Marker) (m : Marker) : gmap nat Marker :=
  <[stamp m := m]> g.
Definition removeLayer (g : gmap nat Marker) (m : Marker) : gmap nat Marker :=
  delete (stamp m) g.

(** The text of one result row (lines 598-603) *)
Definition displayText (f : found) : string :=
  name (location_of f) +:+ " · " +:+ category_of f +:+
  match matchedRelatedItems f with
  | [] => ""
  | items => " [" +:+ String.concat ", " items +:+ "]"
  end.

(** The result panel: shown or hidden, and its rows *)
Record panel := mkPanel {
  shown : bool;
  rows : list string
}.

(** The handler: the layers of the group and the panel after it ran. *)
Definition onInput (value : string) (cats : document) (group : gmap nat Marker)
  : gmap nat Marker * panel :=
  let query := queryOf value in
  if negb (JS.truthy query) then
    (fold_left addLayer (allMarkers cats) group, mkPanel false [])
  else
    let matches := computeMatches query cats in
    let hidden := fold_left removeLayer (allMarkers cats) group in
    let visible := fold_left addLayer (omap (λ f, marker (location_of f)) matches) hidden in
    match matches with
    | [] => (visible, mkPanel false [])
    | _ => (visible, mkPanel true (map displayText (take 25 matches)))
    end.

(** *** The matching rule in the words of the specification *)

(** [s] contains [q] as a substring when case is ignored. *)
Definition containsCI (s q : string) : Prop :=
  ∃ pre post, JS.toLowerCase s = pre +:+ JS.toLowerCase q +:+ post.

(** The name, or some related item, contains the query. *)
Definition specMatches (q : string) (l : location) : Prop :=
  containsCI (name l) q ∨
  Exists (λ item, containsCI item q) (default [] (relatedItems l)).

Lemma containsCI_includes s q :
  containsCI s q ↔ JS.includes (JS.toLowerCase s) (JS.toLowerCase q) = true.
Proof. unfold containsCI. by rewrite JS.includes_spec. Qed.

#[global] Instance containsCI_dec s q : Decision (containsCI s q).
Proof.
  refine (cast_if (decide (JS.includes (JS.toLowerCase s) (JS.toLowerCase q) = true)));
    by rewrite containsCI_includes.
Defined.

#[global] Instance specMatches_dec q l : Decision (specMatches q l).
Proof. unfold specMatches. apply _. Defined.

(** *** The code against the rule *)

Lemma filter_bool_prop {A} (f : A → bool) (P : A → Prop) `{∀ x, Decision (P x)} l :
  (∀ x, f x = true ↔ P x) → List.filter f l = filter P l.
Proof.
  intros Hf. induction l as [| x l IH]; simpl; [done |].
  rewrite filter_cons, IH. destruct (decide (P x)) as [Hp | Hp].
  - apply Hf in Hp. by rewrite Hp.
  - destruct (f x) eqn:E; [| done]. apply Hf in E. done.
Qed.

Lemma filter_nonempty_Exists {A} (P : A → Prop) `{∀ x, Decision (P x)} l :
  match filter P l with _ :: _ => true | [] => false end = bool_decide (Exists P l).
Proof.
  induction l as [| x l IH].
  - symmetry. apply bool_decide_eq_false_2. by intros ?%Exists_nil.
  - rewrite filter_cons. destruct (decide (P x)) as [Hp | Hp].
    + symmetry. apply bool_decide_eq_true_2. by left.
    + rewrite IH. apply bool_decide_ext. rewrite Exists_cons. tauto.
Qed.

Lemma nameMatches_spec q l :
  q ≠ "" →
  JS.truthy (name l) && JS.includes (JS.toLowerCase (name l)) (JS.toLowerCase q) = true
  ↔ containsCI (name l) q.
Proof.
  intros Hq. rewrite containsCI_includes, andb_true_iff. split; [by intros [_ ?] |].
  intros Hi. split; [| done]. apply JS.truthy_spec. intros Hn.
  rewrite Hn, (proj2 (JS.toLowerCase_empty "")) in Hi by done.
  cbn [JS.includes] in Hi. rewrite orb_false_r in Hi.
  destruct (JS.toLowerCase q) eqn:Eq; [| discriminate].
  apply JS.toLowerCase_nonempty in Eq. done.
Qed.

Lemma relatedItems_spec q (o : option (list string)) :
  let found := List.filter (λ item, JS.includes (JS.toLowerCase item) (JS.toLowerCase q)) <$> o in
  match found with Some (_ :: _) => true | _ => false end =
    bool_decide (Exists (λ item, containsCI item q) (default [] o)) ∧
  default [] found = filter (λ item, containsCI item q) (default [] o).
Proof.
  destruct o as [items|]; simpl.
  - rewrite (filter_bool_prop _ (λ item, containsCI item q))
      by (intros x; by rewrite containsCI_includes).
    split; [| done]. rewrite <- filter_nonempty_Exists.
    by destruct (filter _ items).
  - done.
Qed.

(** One entry: the code keeps it exactly when the rule holds for the
    trimmed query, and reports the related items that contain it. *)
Lemma matchLocation_spec q category l :
  q ≠ "" →
  matchLocation (JS.toLowerCase q) category l =
    if decide (specMatches q l)
    then Some (mkFound l category
                 (filter (λ item, containsCI item q) (default [] (relatedItems l))))
    else None.
Proof.
  intros Hq. unfold matchLocation.
  pose proof (nameMatches_spec q l Hq) as Hn.
  destruct (relatedItems_spec q (relatedItems l)) as [-> ->].
  destruct (decide (specMatches q l)) as [[Hs | Hs] | Hs].
  - apply Hn in Hs. by rewrite Hs.
  - rewrite (bool_decide_eq_true_2 _ Hs). by rewrite orb_true_r.
  - rewrite bool_decide_eq_false_2 by (intros ?; apply Hs; by right).
    destruct (JS.truthy (name l) && _) eqn:En; [| done].
    destruct Hs. left. by apply Hn.
Qed.

Lemma matchLocations_spec q category locs :
  q ≠ "" →
  map location_of (omap (matchLocation (JS.toLowerCase q) category) locs) =
    filter (specMatches q) locs.
Proof.
  intros Hq. induction locs as [| l locs IH]; simpl; [done |].
  rewrite filter_cons, matchLocation_spec by done.
  destruct (decide (specMatches q l)); simpl; by rewrite <- IH.
Qed.

Lemma computeMatches_spec q cats :
  q ≠ "" →
  map location_of (computeMatches (JS.toLowerCase q) cats) =
    filter (specMatches q) (allLocations cats).
Proof.
  intros Hq. unfold computeMatches, allLocations.
  induction cats as [| [c d] cats IH]; simpl; [done |].
  rewrite map_app, filter_app, IH. f_equal.
  destruct (locations d) as [locs|]; simpl; [| done].
  by apply matchLocations_spec.
Qed.



Lemma queryOf_blank value : JS.truthy (queryOf value) = negb (JS.isBlank value).
Proof.
  unfold queryOf. destruct (JS.isBlank value) eqn:E; cbn [negb].
  - apply JS.trim_empty in E. by rewrite E, (proj2 (JS.toLowerCase_empty "")).
  - destruct (JS.toLowerCase (JS.trim value)) eqn:Et; [| done].
    apply JS.toLowerCase_nonempty, JS.trim_empty in Et. congruence.
Qed.

Lemma omap_marker_found (fs : list found) :
  omap (λ f, marker (location_of f)) fs = omap marker (map location_of fs).
Proof.
  induction fs as [| f fs IH]; [done |].
  cbn [omap list_omap map]. by rewrite IH.
Qed.

Definition lab : location := mkLocation "1" "2" "Meth Lab 1" None None (Some ["Thermite"; "Keycard"]) None.
Definition dock : location := mkLocation "3" "4" "Dock" None None (Some ["Keycard"]) None.
Definition sample : document := [("Heists", mkCategory "red" (Some [lab; dock]))].


End Engine.

Example search_key :
  let searchMatches := searchMatches (tables := JS.asciiTables) in
  searchMatches " KEY" sample =
    [mkFound lab "Heists" ["Keycard"]; mkFound dock "Heists" ["Keycard"]] ∧
  searchMatches "lab" sample = [mkFound lab "Heists" []] ∧
  searchMatches "therm" sample = [mkFound lab "Heists" ["Thermite"]].
Proof. vm_compute. done. Qed.


(** A text of no-break spaces is a blank query, whatever the engine. *)
Example search_nbsp {tables : JS.CaseTables} (group : gmap nat Marker) :
  onInput (JS.utf8 [194; 160; 194; 160]%nat) sample group =
    (fold_left addLayer (allMarkers sample) group, mkPanel false []).
Proof. unfold onInput. by rewrite queryOf_blank. Qed.

(** Letters outside ASCII are matched as the engine lowers them: with
    tables that take "CAFÉ" to "café", the query "CAFÉ" finds the
    entry named "café". *)
Example search_cafe {tables : JS.CaseTables} :
  let upper := JS.utf8 [67; 65; 70; 195; 137]%nat in
  let lower := JS.utf8 [99; 97; 102; 195; 169]%nat in
  let l := mkLocation "1" "2" lower None None None None in
  JS.toLowerCase upper = lower → JS.toLowerCase lower = lower →
  searchMatches upper [("Food", mkCategory "red" (Some [l]))] = [mkFound l "Food" []].
Proof.
  intros upper lower l H1 H2. unfold searchMatches, queryOf.
  assert (JS.trim upper = upper) as -> by (by vm_compute).
  unfold computeMatches. cbn [flat_map locations snd fst omap list_omap app].
  unfold matchLocation. cbn [name relatedItems l fmap option_fmap option_map].
  rewrite H1, H2. by vm_compute.
Qed.


End Search.

(** ** The view controller: [focusLocation] (map.js 208-234) *)

Module Focus.
Import Loader.

(** What [map.getMinZoom()] and [map.getMaxZoom()] return; [None]
    stands for null or undefined, the case the [??] guards. *)
Record zoomBounds := mkBounds {
  getMinZoom : option Q;
  getMaxZoom : option Q
}.

(** The map of lines 4-10: [minZoom: -15], [maxZoom: 10] *)
Definition theMap : zoomBounds := mkBounds (Some (-15)%Q) (Some 10%Q).

(** What the timer of line 227 does when it fires *)
Inductive action :=
| PanBy (dx dy : Z)
| HighlightMarker (m : Marker)
| ShowSidePopup (l : location).

Record state := mkState {
  view : option (JS.number * JS.number * Q);   (* centre and zoom of the last [setView] *)
  timers : list location                       (* pending 350 ms callbacks *)
}.

Definition defaultZoom : Q := 24 # 10.

(** Lines 218-223; [zoom] is [options.zoom] when it is a number. *)
Definition clampedZoom (m : zoomBounds) (zoom : option Q) : Q :=
  let requestedZoom := default defaultZoom zoom in
  let maxZoom := default 3%Q (getMaxZoom m) in
  let minZoom := default (-10)%Q (getMinZoom m) in
  Qmin maxZoom (Qmax requestedZoom minZoom).

Definition focusLocation (m : zoomBounds) (location : option location)
    (zoom : option Q) (st : state) : state :=
  match location with
  | None => st
  | Some l =>
      let la := JS.parseFloat (lat l) in
      let ln := JS.parseFloat (lng l) in
      if JS.isNaN la || JS.isNaN ln then st
      else mkState (Some (la, ln, clampedZoom m zoom)) (timers st ++ [l])
  end.

(** The callback of lines 227-233 *)
Definition followUp (l : location) : list action :=
  [PanBy 0 (-120)] ++
  match marker l with
  | Some mk => [HighlightMarker mk]
  | None => []
  end ++ [ShowSidePopup l].

Lemma clampedZoom_within m zoom :
  let mx := default 3%Q (getMaxZoom m) in
  let mn := default (-10)%Q (getMinZoom m) in
  (mn <= mx)%Q → (mn <= clampedZoom m zoom <= mx)%Q.
Proof.
  intros mx mn Hb. unfold clampedZoom. fold mx mn. split.
  - apply Q.min_glb; [done | apply Q.le_max_r].
  - apply Q.le_min_l.
Qed.

Lemma clampedZoom_inside m z :
  let mx := default 3%Q (getMaxZoom m) in
  let mn := default (-10)%Q (getMinZoom m) in
  (mn <= z <= mx)%Q → (clampedZoom m (Some z) == z)%Q.
Proof.
  intros mx mn [H1 H2]. unfold clampedZoom. fold mx mn. simpl.
  rewrite (Q.max_l z mn) by done. by rewrite Q.min_r.
Qed.

Example zoom_999 : clampedZoom theMap (Some 999%Q) = 10%Q.
Proof. reflexivity. Qed.

Example zoom_search_result : clampedZoom theMap (Some (27 # 10)) = 27 # 10.
Proof. reflexivity. Qed.

Example zoom_default : clampedZoom theMap None = 24 # 10.
Proof. reflexivity. Qed.

(** C9: focusLocation changes nothing when the location is absent or
    one of its coordinates does not parse; otherwise the view is set
    to the parsed coordinates with the requested zoom (2.4 when none is
    given) clamped by [min(maxZoom, max(requested, minZoom))]: the
    result lies within the bounds of the map whenever these are in
    order, and equals the request when the request lies within them.
    On the map of map.js a request of 999 gives 10. *)
Theorem focusLocation_clamps
    (m : zoomBounds) (location : option location) (zoom : option Q) (st : state) :
  let st' := focusLocation m location zoom st in
  let mx := default 3%Q (getMaxZoom m) in
  let mn := default (-10)%Q (getMinZoom m) in
  match location with
  | None => st' = st
  | Some l =>
      let la := JS.parseFloat (lat l) in
      let ln := JS.parseFloat (lng l) in
      if JS.isNaN la || JS.isNaN ln then st' = st
      else
        view st' = Some (la, ln, clampedZoom m zoom) ∧
        clampedZoom m zoom = Qmin mx (Qmax (default defaultZoom zoom) mn) ∧
        ((mn <= mx)%Q → (mn <= clampedZoom m zoom <= mx)%Q) ∧
        (∀ z, zoom = Some z → (mn <= z <= mx)%Q → (clampedZoom m zoom == z)%Q)
  end ∧
  clampedZoom theMap (Some 999%Q) = 10%Q.
Proof.
  intros st' mx mn. split; [| reflexivity].
  destruct location as [l|]; [| done]. subst st'. simpl.
  destruct (JS.isNaN _ || JS.isNaN _); [done |]. simpl.
  split_and!; [done | done | apply clampedZoom_within |].
  intros z -> Hz. by apply clampedZoom_inside.
Qed.

Example focus_bad_coordinates :
  focusLocation theMap (Some badEntry) (Some 999%Q) (mkState None []) = mkState None [].
Proof. reflexivity. Qed.

Example focus_good_999 :
  focusLocation theMap (Some goodEntry) (Some 999%Q) (mkState None []) =
    mkState (Some (JS.Num 20, JS.Num 30, 10%Q)) [goodEntry].
Proof. vm_compute. reflexivity. Qed.

End Focus.

(** ** Marker authoring: create mode, the draft popup and the export
       (map.js 315-330, 346-473, 514-520) *)

Module Authoring.

(** The object given to [JSON.stringify] (lines 448-456) *)
Record markerData := mkMarkerData {
  id : Z;
  lat : string;
  lng : string;
  name : string;
  img : string;
  info : string;
  relatedItems : list string
}.

(** One [.related-item-input] row: the two text inputs *)
Record row := mkRow {
  itemName : string;
  itemDesc : string
}.

(** The inputs of the popup when the copy button is clicked *)
Record form := mkForm {
  markerName : string;
  markerImg : string;
  markerInfo : string;
  rows : list row
}.

(** What the popup of a draft shows: the form, or the note that
    replaces it after the copy (line 459). *)
Inductive popup := CreateForm | CopiedNote.

Record draft := mkDraft {
  latlng : Q * Q;
  content : popup
}.

Record state := mkState {
  createMarkerMode : bool;
  layers : gmap nat draft;       (* draft markers on the map, by stamp *)
  nextStamp : nat;
  timers : list nat;             (* pending 1500 ms timers: the marker each removes *)
  writes : list string;          (* clipboard writes not yet settled *)
  clipboard : option string;
  alerts : list string;
  console : list string
}.

Definition init : state := mkState false ∅ 0 [] [] None [] [].

Definition setMode (b : bool) (st : state) : state :=
  mkState b (layers st) (nextStamp st) (timers st) (writes st)
          (clipboard st) (alerts st) (console st).

Definition setLayers (l : gmap nat draft) (st : state) : state :=
  mkState (createMarkerMode st) l (nextStamp st) (timers st) (writes st)
          (clipboard st) (alerts st) (console st).

(** [createMarkerWithPopup(latlng)]: a new marker on the map with the
    form in its popup. *)
Definition createMarkerWithPopup (ll : Q * Q) (st : state) : state :=
  mkState (createMarkerMode st)
          (<[nextStamp st := mkDraft ll CreateForm]> (layers st))
          (S (nextStamp st)) (timers st) (writes st)
          (clipboard st) (alerts st) (console st).

(** [map.on("dblclick", ...)] (line 347) *)
Definition onMapDblClick (ll : Q * Q) (st : state) : state :=
  createMarkerWithPopup ll st.

(** [map.on("click", ...)] (lines 356-360) *)
Definition onMapClick (ll : Q * Q) (st : state) : state :=
  if negb (createMarkerMode st) then st
  else createMarkerWithPopup ll (setMode false st).

(** The click handler of the Create Marker button (lines 516-519) *)
Definition onCreateMarkerButton (st : state) : state := setMode true st.

(** Lines 440-446: the trimmed name of every row that has one *)
Definition collectRelatedItems (rs : list row) : list string :=
  fold_left (λ relatedItems r,
               let itemName := JS.trim (itemName r) in
               if JS.truthy itemName then relatedItems ++ [itemName]
               else relatedItems) rs [].

Definition alertText : string :=
  "Copying to clipboard failed. Ensure you are using HTTPS or localhost.".

Section Builtins.

(** [Number::toString] (used by [toFixed] from 10^21 on) and
    [JSON.stringify] are taken as given. *)
Variable numberToString : Q → string.
Variable stringify : markerData → string.

(** Whether [navigator.clipboard] is defined: browsers expose it in
    secure contexts only (HTTPS or localhost). *)
Variable hasClipboard : bool.

(** Lines 448-456 *)
Definition buildMarkerData (ll : Q * Q) (f : form) (now : Z) : markerData :=
  mkMarkerData now
    (JS.toFixed numberToString 6 ll.1)
    (JS.toFixed numberToString 6 ll.2)
    (JS.orElse (markerName f) "New Location")
    (JS.orElse (markerImg f) "")
    (JS.orElse (markerInfo f) "")
    (collectRelatedItems (rows f)).

(** [copyToClipboard(text)] up to its return (lines 318-320): the
    write is in flight, its [then] and [catch] are registered.  Where
    [navigator.clipboard] is undefined, reading [writeText] of it
    throws a TypeError: [None]. *)
Definition copyToClipboard (text : string) (st : state) : option state :=
  if hasClipboard then
    Some (mkState (createMarkerMode st) (layers st) (nextStamp st) (timers st)
                  (writes st ++ [text]) (clipboard st) (alerts st) (console st))
  else None.

(** The click handler of the copy button (lines 434-463); [now] is
    what [Date.now()] returns.  The button exists while the popup of
    the marker shows the form.  When [copyToClipboard] throws, the
    exception leaves the handler: the note of line 459 and the timer
    of lines 460-462 are not reached. *)
Definition onCopyClick (m : nat) (f : form) (now : Z) (st : state) : state :=
  match layers st !! m with
  | Some (mkDraft ll CreateForm) =>
      let formattedData := stringify (buildMarkerData ll f now) in
      match copyToClipboard formattedData st with
      | Some st1 =>
          mkState (createMarkerMode st1)
                  (<[m := mkDraft ll CopiedNote]> (layers st1))
                  (nextStamp st1)
                  (timers st1 ++ [m])
                  (writes st1)
                  (clipboard st1) (alerts st1) (console st1)
      | None => st
      end
  | _ => st
  end.

(** The [then] and [catch] of [copyToClipboard] (lines 321-329) for
    the [k]-th write in flight *)
Definition clipboardSettled (k : nat) (ok : bool) (st : state) : state :=
  match writes st !! k with
  | Some text =>
      if ok then
        mkState (createMarkerMode st) (layers st) (nextStamp st) (timers st)
                (delete k (writes st)) (Some text) (alerts st)
                (console st ++ ["Copied to clipboard successfully!"])
      else
        mkState (createMarkerMode st) (layers st) (nextStamp st) (timers st)
                (delete k (writes st)) (clipboard st) (alerts st ++ [alertText])
                (console st ++ ["Failed to copy text to clipboard:"])
  | None => st
  end.

(** The timer of lines 460-462 fires: [map.removeLayer(marker)] *)
Definition timerFired (k : nat) (st : state) : state :=
  match timers st !! k with
  | Some m =>
      mkState (createMarkerMode st) (delete m (layers st)) (nextStamp st)
              (delete k (timers st)) (writes st)
              (clipboard st) (alerts st) (console st)
  | None => st
  end.

(** [marker.on("popupclose", ...)] (lines 470-472) *)
Definition onPopupClose (m : nat) (st : state) : state :=
  setLayers (delete m (layers st)) st.

Inductive event :=
| CreateMarkerButton
| MapClick (ll : Q * Q)
| MapDblClick (ll : Q * Q)
| CopyClick (m : nat) (f : form) (now : Z)
| ClipboardSettles (k : nat) (ok : bool)
| TimerFires (k : nat)
| PopupClose (m : nat).

Definition step (st : state) (e : event) : state :=
  match e with
  | CreateMarkerButton => onCreateMarkerButton st
  | MapClick ll => onMapClick ll st
  | MapDblClick ll => onMapDblClick ll st
  | CopyClick m f now => onCopyClick m f now st
  | ClipboardSettles k ok => clipboardSettled k ok st
  | TimerFires k => timerFired k st
  | PopupClose m => onPopupClose m st
  end.

Definition run (tr : list event) (st : state) : state := fold_left step tr st.

End Builtins.

Definition isMapClick (e : event) : bool :=
  match e with MapClick _ => true | _ => false end.

(** *** The create mode is one-shot *)

Section ModeFacts.
Variable numberToString : Q → string.
Variable stringify : markerData → string.
Variable hasClipboard : bool.

Local Abbreviation step' := (step numberToString stringify hasClipboard).
Local Abbreviation run' := (run numberToString stringify hasClipboard).

(** Only the button and the single click write the flag. *)
Lemma step_mode st e :
  createMarkerMode (step' st e) =
    match e with
    | CreateMarkerButton => true
    | MapClick _ => false
    | _ => createMarkerMode st
    end.
Proof.
  destruct e as [| ll | ll | m f now | k ok | k | m]; simpl; try done.
  - unfold onMapClick. by destruct (createMarkerMode st) eqn:E.
  - unfold onCopyClick, copyToClipboard.
    by destruct (layers st !! m) as [[? []]|], hasClipboard.
  - unfold clipboardSettled. destruct (writes st !! k); [by destruct ok | done].
  - unfold timerFired. by destruct (timers st !! k).
Qed.

Lemma run_snoc tr e st : run' (tr ++ [e]) st = step' (run' tr st) e.
Proof. unfold run. by rewrite fold_left_app. Qed.

(** The flag is set exactly when the button was clicked and no single
    click on the map came after it. *)
Lemma mode_armed tr :
  createMarkerMode (run' tr init) = true ↔
  ∃ tr1 tr2, tr = tr1 ++ CreateMarkerButton :: tr2 ∧
             Forall (λ e, isMapClick e = false) tr2.
Proof.
  induction tr as [| e tr IH] using rev_ind.
  { split; [done |]. intros (tr1 & tr2 & H & _). by destruct tr1. }
  rewrite run_snoc, step_mode.
  assert (∀ tr1 tr2, tr ++ [e] = tr1 ++ CreateMarkerButton :: tr2 →
            (tr2 = [] ∧ tr = tr1 ∧ e = CreateMarkerButton) ∨
            (∃ tr2', tr2 = tr2' ++ [e] ∧ tr = tr1 ++ CreateMarkerButton :: tr2')) as Hsplit.
  { intros tr1 tr2 H. destruct tr2 as [| x tr2' _] using rev_ind.
    - apply app_inj_tail in H as [-> ->]. by left.
    - right. rewrite app_comm_cons, app_assoc in H.
      apply app_inj_tail in H as [-> ->]. by exists tr2'. }
  split.
  - intros Hm.
    assert (isMapClick e = false → createMarkerMode (run' tr init) = true →
            ∃ tr1 tr2, tr ++ [e] = tr1 ++ CreateMarkerButton :: tr2 ∧
                       Forall (λ e, isMapClick e = false) tr2) as Hkeep.
    { intros He (tr1 & tr2 & -> & Hall)%IH. exists tr1, (tr2 ++ [e]). split.
      - by rewrite <- app_assoc.
      - apply Forall_app. split; [done | by apply Forall_singleton]. }
    destruct e; try discriminate; try (by apply Hkeep).
    exists tr, []. split; [done | apply Forall_nil_2].
  - intros (tr1 & tr2 & H & Hall).
    destruct (Hsplit tr1 tr2 H) as [(-> & -> & ->) | (tr2' & -> & ->)]; [done |].
    apply Forall_app in Hall as [Hall He].
    assert (isMapClick e = false) as He' by (by inversion He).
    destruct e; try discriminate; try done; apply IH; eauto.
Qed.

End ModeFacts.

Example two_clicks nts sfy api :
  let st := run nts sfy api [CreateMarkerButton; MapClick (1, 2)%Q; MapClick (3, 4)%Q] init in
  layers st = {[ 0%nat := mkDraft (1, 2)%Q CreateForm ]} ∧ createMarkerMode st = false.
Proof. done. Qed.

(** C10: the create mode is one-shot.  After any events, the flag is
    set exactly when the Create Marker button was clicked with no
    single click on the map after it; a single click creates a draft
    only then, and creates it from a state whose flag is already
    cleared; the flag is clear after every single click, so a second
    single click right after it changes nothing. *)
Theorem create_mode_one_shot
    (numberToString : Q → string) (stringify : markerData → string)
    (hasClipboard : bool) (tr : list event) (l1 l2 : Q * Q) :
  let st := run numberToString stringify hasClipboard tr init in
  let s1 := onMapClick l1 st in
  (createMarkerMode st = true ↔
     ∃ tr1 tr2, tr = tr1 ++ CreateMarkerButton :: tr2 ∧
                Forall (λ e, isMapClick e = false) tr2) ∧
  s1 = (if createMarkerMode st
        then createMarkerWithPopup l1 (setMode false st) else st) ∧
  layers s1 = (if createMarkerMode st
               then <[nextStamp st := mkDraft l1 CreateForm]> (layers st)
               else layers st) ∧
  createMarkerMode s1 = false ∧
  onMapClick l2 s1 = s1.
Proof.
  intros st s1. split; [apply mode_armed |].
  subst s1. unfold onMapClick.
  destruct (createMarkerMode st) eqn:E; simpl; by rewrite ?E.
Qed.

(** *** A clipboard write that fails *)

Lemma lookup_snoc {A} (l : list A) (x : A) : (l ++ [x]) !! length l = Some x.
Proof. by rewrite lookup_app_r, Nat.sub_diag by lia. Qed.

Lemma delete_snoc {A} (l : list A) (x : A) : delete (length l) (l ++ [x]) = l.
Proof.
  induction l as [| y l IH]; [done |]. simpl. by rewrite IH.
Qed.

Lemma onCopyClick_no_clipboard nts sfy m f now st :
  onCopyClick nts sfy false m f now st = st.
Proof. unfold onCopyClick, copyToClipboard. by destruct (layers st !! m) as [[? []]|]. Qed.

Example failed_write_run :
  let st := run (λ _, "") name true
              [MapDblClick (12345678 # 1000000, - (9876543 # 1000000))%Q;
               CopyClick 0 (mkForm "Meth Lab 1" "" "" []) 1700000000000;
               ClipboardSettles 0 false] init in
  alerts st = [alertText] ∧ timers st = [0%nat] ∧
  layers st !! 0%nat = Some (mkDraft (12345678 # 1000000, - (9876543 # 1000000))%Q CopiedNote).
Proof. vm_compute. done. Qed.

(** A rejected write does not keep the draft on the map.  Here a draft
    is created and copied, the write is rejected and the alert is
    raised; when the timer of the copy fires, the draft is off the
    map. *)
Example failed_write_draft_removed :
  let st := run (λ _, "") name true
              [MapDblClick (12345678 # 1000000, - (9876543 # 1000000))%Q;
               CopyClick 0 (mkForm "Meth Lab 1" "" "" []) 1700000000000;
               ClipboardSettles 0 false;
               TimerFires 0] init in
  alerts st = [alertText] ∧ clipboard st = None ∧
  ¬ is_Some (layers st !! 0%nat).
Proof.
  vm_compute. split_and!; [done | done |]. by intros [? ?].
Qed.

(** Without [navigator.clipboard] the click raises no alert at all. *)
Example missing_clipboard_run :
  let st0 := run (λ _, "") name false
               [MapDblClick (12345678 # 1000000, - (9876543 # 1000000))%Q] init in
  let st := run (λ _, "") name false
              [CopyClick 0 (mkForm "Meth Lab 1" "" "" []) 1700000000000] st0 in
  st = st0 ∧ alerts st = [] ∧ timers st = [] ∧ writes st = [].
Proof. vm_compute. done. Qed.

(** C4: what the code does when the clipboard write fails, against
    the claim (alert raised, draft kept for a retry).  The write fails
    in one of two ways.  When [writeText] rejects, the alert is raised
    and nothing reaches the clipboard, but the popup of the draft
    already shows "Marker copied to clipboard!" in place of the form,
    so another click on the copy button is not possible, and the draft
    is removed when the timer set by the click fires, exactly as after
    a write that succeeds; the rejection and the timer may come in
    either order.  When [navigator.clipboard] is missing, the click
    changes nothing: the draft stays with its form, but no alert is
    raised. *)
Theorem failed_write_alerts_then_timer_removes
    (numberToString : Q → string) (stringify : markerData → string)
    (st : state) (m : nat) (ll : Q * Q) (f f' : form) (now now' : Z) :
  layers st !! m = Some (mkDraft ll CreateForm) →
  let w := length (writes st) in
  let t := length (timers st) in
  let s1 := onCopyClick numberToString stringify true m f now st in
  let s2 := clipboardSettled w false s1 in
  let sA := timerFired t s2 in
  let sB := clipboardSettled w false (timerFired t s1) in
  let sOk := timerFired t (clipboardSettled w true s1) in
  let s0 := onCopyClick numberToString stringify false m f now st in
  (alerts s2 = alerts st ++ [alertText] ∧
   clipboard s2 = clipboard st ∧
   layers s2 !! m = Some (mkDraft ll CopiedNote) ∧
   onCopyClick numberToString stringify true m f' now' s2 = s2 ∧
   sA = sB ∧
   alerts sA = alerts st ++ [alertText] ∧
   layers sA = delete m (layers st) ∧
   layers sOk = layers sA) ∧
  (s0 = st ∧ alerts s0 = alerts st ∧ timers s0 = timers st ∧
   layers s0 !! m = Some (mkDraft ll CreateForm)).
Proof.
  intros Hm w t s1 s2 sA sB sOk s0. split.
  - assert (s1 = mkState (createMarkerMode st) (<[m := mkDraft ll CopiedNote]> (layers st))
                   (nextStamp st) (timers st ++ [m])
                   (writes st ++ [stringify (buildMarkerData numberToString ll f now)])
                   (clipboard st) (alerts st) (console st)) as Hs1.
    { subst s1. unfold onCopyClick, copyToClipboard. by rewrite Hm. }
    clearbody s1. subst s1 s2 sA sB sOk w t.
    unfold clipboardSettled, timerFired. cbn [writes timers].
    rewrite !lookup_snoc. cbn [writes timers]. rewrite !lookup_snoc.
    cbn [alerts clipboard layers createMarkerMode nextStamp timers writes console].
    rewrite !delete_snoc, lookup_insert_eq, delete_insert_eq.
    split_and!; try done.
    unfold onCopyClick. cbn [layers]. by rewrite lookup_insert_eq.
  - subst s0. by rewrite onCopyClick_no_clipboard.
Qed.

Lemma failed_write_alerts_then_timer_removes_witness :
  let st := run (λ _, "") name true [MapDblClick (1, 2)%Q] init in
  let s1 := onCopyClick (λ _, "") name true 0 (mkForm "Dock" "" "" []) 5 st in
  let s2 := clipboardSettled 0 false s1 in
  let sA := timerFired 0 s2 in
  let sB := clipboardSettled 0 false (timerFired 0 s1) in
  let sOk := timerFired 0 (clipboardSettled 0 true s1) in
  let s0 := onCopyClick (λ _, "") name false 0 (mkForm "Dock" "" "" []) 5 st in
  (alerts s2 = alerts st ++ [alertText] ∧
   clipboard s2 = clipboard st ∧
   layers s2 !! 0%nat = Some (mkDraft (1, 2)%Q CopiedNote) ∧
   onCopyClick (λ _, "") name true 0 (mkForm "Dock" "" "" []) 6 s2 = s2 ∧
   sA = sB ∧
   alerts sA = alerts st ++ [alertText] ∧
   layers sA = delete 0%nat (layers st) ∧
   layers sOk = layers sA) ∧
  (s0 = st ∧ alerts s0 = alerts st ∧ timers s0 = timers st ∧
   layers s0 !! 0%nat = Some (mkDraft (1, 2)%Q CreateForm)).
Proof.
  apply (failed_write_alerts_then_timer_removes (λ _, "") name
           (run (λ _, "") name true [MapDblClick (1, 2)%Q] init) 0 (1, 2)%Q
           (mkForm "Dock" "" "" []) (mkForm "Dock" "" "" []) 5 6).
  reflexivity.
Defined.

(** *** The exported record *)

Lemma collectRelatedItems_spec rs :
  collectRelatedItems rs = filter (λ s, s ≠ "") (JS.trim <$> (itemName <$> rs)).
Proof.
  unfold collectRelatedItems.
  assert (∀ acc, fold_left (λ relatedItems r,
                    let itemName := JS.trim (itemName r) in
                    if JS.truthy itemName then relatedItems ++ [itemName]
                    else relatedItems) rs acc =
                 acc ++ filter (λ s, s ≠ "") (JS.trim <$> (itemName <$> rs))) as H.
  { induction rs as [| r rs IH]; intros acc; simpl.
    - by rewrite app_nil_r.
    - rewrite IH, filter_cons. destruct (JS.trim (itemName r)) eqn:E; simpl.
      + done.
      + by rewrite <- app_assoc. }
  apply H.
Qed.



Definition thermite : form :=
  mkForm "Meth Lab 1" "" "" [mkRow "Thermite" "x5"; mkRow "  " "unused"; mkRow "Keycard" ""].

Example export_round_trip nts :
  buildMarkerData nts (12345678 # 1000000, - (9876543 # 1000000))%Q thermite 1700000000000 =
    mkMarkerData 1700000000000 "12.345678" "-9.876543" "Meth Lab 1" "" ""
                 ["Thermite"; "Keycard"].
Proof. vm_compute. reflexivity. Qed.

Example export_blank_name nts :
  name (buildMarkerData nts (0, 0)%Q (mkForm "" "" "" []) 1) = "New Location".
Proof. reflexivity. Qed.




End Authoring.

Example parseFloat_abc : JS.parseFloat "abc" = JS.NaN.
Proof. reflexivity. Qed.

Example parseFloat_12 : JS.parseFloat " 12.5px" = JS.Num (12 + 5 / 10)%Q.
Proof. vm_compute. reflexivity. Qed.

Example toFixed_lat nts : JS.toFixed nts 6 (12345678 # 1000000) = "12.345678".
Proof. vm_compute. reflexivity. Qed.

Example toFixed_lng nts : JS.toFixed nts 6 (- (9876543 # 1000000)) = "-9.876543".
Proof. vm_compute. reflexivity. Qed.

Example toFixed_round nts : JS.toFixed nts 6 (- (1 # 3)) = "-0.333333".
Proof. vm_compute. reflexivity. Qed.

Example toFixed_half nts : JS.toFixed nts 2 (5 # 1000) = "0.01".
Proof. vm_compute. reflexivity. Qed.

Example toFixed_small nts : JS.toFixed nts 6 (- (1 # 10000000)) = "-0.000000".
Proof. vm_compute. reflexivity. Qed.

(** * Further properties of map.js *)

(** ** More about [trim] *)

Module StringFacts.
Import JS.


Definition bytes (s : string) : list ascii := list_ascii_of_string s.










Example trim_unicode :
  trim (utf8 [194; 160; 9]%nat +:+ "Lab" +:+ utf8 [226; 128; 137; 32]%nat) = "Lab" ∧
  isBlank (utf8 [227; 128; 128; 239; 187; 191]%nat) = true ∧
  trim (utf8 [195; 137; 32]%nat) = utf8 [195; 137]%nat.
Proof. by vm_compute. Qed.

End StringFacts.

(** ** More about the search box (map.js 522-611) *)

Module SearchMore.
Import Loader Search.

Definition labOnMap : document :=
  [("Heists", mkCategory "red"
      (Some [mkLocation "1" "2" "Lab" None None None
               (Some (mkMarker 0 (JS.Num 1, JS.Num 2) "Lab"));
             mkLocation "3" "4" "Dock" None None None
               (Some (mkMarker 1 (JS.Num 3, JS.Num 4) "Dock"))]))].

Definition labGroup : gmap nat Marker :=
  {[ 0%nat := mkMarker 0 (JS.Num 1, JS.Num 2) "Lab";
     1%nat := mkMarker 1 (JS.Num 3, JS.Num 4) "Dock" ]}.

Section Engine.
Context {tables : JS.CaseTables}.

(** The layer found under a stamp after [addLayer] was folded over a
    list: the last marker of the list with that stamp, if any. *)
Lemma fold_addLayer_lookup ms : ∀ (g : gmap nat Marker) k,
  fold_left addLayer ms g !! k =
    match last (filter (λ m, stamp m = k) ms) with
    | Some m => Some m
    | None => g !! k
    end.
Proof.
  induction ms as [| m ms IH]; intros g k; [done |].
  cbn [fold_left]. rewrite IH, filter_cons. unfold addLayer.
  destruct (decide (stamp m = k)) as [<- | Hne].
  - rewrite last_cons, lookup_insert_eq. by destruct (last _).
  - by rewrite lookup_insert_ne.
Qed.

Lemma fold_removeLayer_lookup ms : ∀ (g : gmap nat Marker) k,
  fold_left removeLayer ms g !! k =
    if decide (k ∈ stamp <$> ms) then None else g !! k.
Proof.
  induction ms as [| m ms IH]; intros g k; [done |].
  cbn [fold_left]. rewrite IH, fmap_cons. unfold removeLayer.
  destruct (decide (k ∈ stamp <$> ms)) as [Hin | Hnin].
  - rewrite decide_True; [done | by right].
  - destruct (decide (stamp m = k)) as [<- | Hne].
    + rewrite lookup_delete_eq. rewrite decide_True; [done | by left].
    + rewrite lookup_delete_ne by done.
      rewrite decide_False; [done |]. intros [? | ?]%elem_of_cons; congruence.
Qed.

Lemma last_filter_stamp (ms : list Marker) k :
  last (filter (λ m, stamp m = k) ms) = None ↔ k ∉ stamp <$> ms.
Proof.
  rewrite last_None. split.
  - intros Hf (m & -> & Hm)%list_elem_of_fmap.
    assert (m ∈ filter (λ m0, stamp m0 = stamp m) ms) as Hin
      by (by apply list_elem_of_filter).
    rewrite Hf in Hin. by apply elem_of_nil in Hin.
  - intros Hk. destruct (filter _ ms) as [| m l] eqn:E; [done | exfalso].
    assert (m ∈ filter (λ m0, stamp m0 = k) ms) as Hin by (rewrite E; by left).
    apply list_elem_of_filter in Hin as [<- Hin]. apply Hk. by apply list_elem_of_fmap_2.
Qed.

Lemma last_filter_elem (ms : list Marker) k m :
  last (filter (λ m, stamp m = k) ms) = Some m → m ∈ ms ∧ stamp m = k.
Proof.
  intros Hl. apply last_Some_elem_of in Hl.
  apply list_elem_of_filter in Hl. tauto.
Qed.

(** What the handler leaves on the group for a text that is not blank. *)
Lemma onInput_layers value cats (group : gmap nat Marker) :
  JS.isBlank value = false →
  (onInput value cats group).1 =
    fold_left addLayer
      (omap marker (filter (specMatches (JS.trim value)) (allLocations cats)))
      (fold_left removeLayer (allMarkers cats) group).
Proof.
  intros Hb. unfold onInput. rewrite queryOf_blank, Hb. cbn [negb].
  assert (JS.trim value ≠ "") as Hq.
  { intros Hq. apply JS.trim_empty in Hq. congruence. }
  unfold queryOf. rewrite <- computeMatches_spec, <- omap_marker_found by done.
  by destruct (computeMatches _ cats).
Qed.

Lemma onInput_blank_layers value cats (group : gmap nat Marker) :
  JS.isBlank value = true →
  onInput value cats group = (fold_left addLayer (allMarkers cats) group, mkPanel false []).
Proof. intros Hb. unfold onInput. by rewrite queryOf_blank, Hb. Qed.

Lemma matched_markers_sub (P : location → Prop) `{∀ l, Decision (P l)} cats k :
  k ∈ stamp <$> omap marker (filter P (allLocations cats)) →
  k ∈ stamp <$> allMarkers cats.
Proof.
  intros (m & -> & Hm)%list_elem_of_fmap. apply list_elem_of_fmap_2.
  apply list_elem_of_omap in Hm as (l & Hl & Hml).
  apply list_elem_of_omap. exists l. split; [| done].
  apply list_elem_of_filter in Hl. tauto.
Qed.







Lemma clear_after_search
    (v1 v2 : string) (cats : document) (group : gmap nat Marker) :
  (∀ m, m ∈ allMarkers cats → group !! stamp m = Some m) →
  JS.isBlank v2 = true →
  onInput v2 cats (onInput v1 cats group).1 = (group, mkPanel false []).
Proof.
  intros Hon Hb2. rewrite onInput_blank_layers by done. f_equal.
  apply map_eq. intros k. rewrite fold_addLayer_lookup.
  destruct (last _) as [m|] eqn:El.
  { apply last_filter_elem in El as [Hm <-]. symmetry. by apply Hon. }
  apply last_filter_stamp in El.
  destruct (JS.isBlank v1) eqn:Hb1.
  - rewrite onInput_blank_layers by done. cbn [fst].
    rewrite fold_addLayer_lookup. apply last_filter_stamp in El. by rewrite El.
  - rewrite onInput_layers by done.
    rewrite fold_addLayer_lookup, fold_removeLayer_lookup, decide_False by done.
    assert (k ∉ stamp <$> omap marker
              (filter (specMatches (JS.trim v1)) (allLocations cats))) as Hn
      by (intros ?; apply El; by eapply matched_markers_sub).
    apply last_filter_stamp in Hn. by rewrite Hn.
Qed.

(** X2: clearing the search box restores the map.  When every marker
    of the document is on the group under its stamp, a search with any
    text followed by a search with a blank text leaves the group
    exactly as it was before the two. *)
Theorem search_then_clear_restores
    (v1 v2 : string) (cats : document) (group : gmap nat Marker) :
  (∀ m, m ∈ allMarkers cats → group !! stamp m = Some m) →
  JS.isBlank v2 = true →
  onInput v2 cats (onInput v1 cats group).1 = (group, mkPanel false []).
Proof. apply clear_after_search. Qed.

Lemma containsCI_narrow s q q' :
  JS.includes (JS.toLowerCase q') (JS.toLowerCase q) = true →
  containsCI s q' → containsCI s q.
Proof.
  intros (a & b & Hq)%JS.includes_spec (pre & post & Hs).
  exists (pre +:+ a), (b +:+ post). rewrite Hs, Hq.
  by rewrite !JS.append_assoc.
Qed.

Lemma filter_sublist_impl {A} (P Q : A → Prop)
    `{∀ x, Decision (P x)} `{∀ x, Decision (Q x)} (l : list A) :
  (∀ x, P x → Q x) → filter P l `sublist_of` filter Q l.
Proof.
  intros Himp. induction l as [| x l IH]; [done |].
  rewrite !filter_cons. destruct (decide (P x)) as [Hp | Hp].
  - rewrite decide_True by auto. by apply sublist_skip.
  - destruct (decide (Q x)); [by apply sublist_cons | done].
Qed.

(** X3: a longer query narrows the result.  When the (trimmed, lower
    case) text [v'] contains the text [v], every entry found for [v']
    is found for [v], in the same order. *)
Theorem search_refined_query_narrows (v v' : string) (cats : document) :
  JS.isBlank v = false →
  JS.includes (queryOf v') (queryOf v) = true →
  map location_of (searchMatches v' cats) `sublist_of`
  map location_of (searchMatches v cats).
Proof.
  intros Hb Hinc.
  assert (JS.trim v ≠ "") as Hq.
  { intros Hq. apply JS.trim_empty in Hq. congruence. }
  assert (JS.trim v' ≠ "") as Hq'.
  { intros Hq'. unfold queryOf in Hinc.
    rewrite Hq', (proj2 (JS.toLowerCase_empty "")) in Hinc by done.
    cbn [JS.includes] in Hinc. rewrite orb_false_r in Hinc.
    destruct (JS.toLowerCase (JS.trim v)) eqn:E; [| discriminate].
    by apply JS.toLowerCase_nonempty in E. }
  unfold searchMatches, queryOf. rewrite !computeMatches_spec by done.
  apply filter_sublist_impl. intros l [Hn | Hi].
  - left. by eapply containsCI_narrow.
  - right. eapply Exists_impl; [exact Hi |]. intros item. by apply containsCI_narrow.
Qed.



End Engine.


Example search_rows :
  rows (onInput (tables := JS.asciiTables) " KEY" sample ∅).2 =
    ["Meth Lab 1 · Heists [Keycard]"; "Dock · Heists [Keycard]"].
Proof. by vm_compute. Qed.

Lemma search_then_clear_restores_witness :
  let tables := JS.asciiTables in
  onInput "  " labOnMap (onInput "dock" labOnMap labGroup).1 = (labGroup, mkPanel false []).
Proof.
  apply (search_then_clear_restores (tables := JS.asciiTables) "dock" "  " labOnMap labGroup).
  - intros m Hm. apply list_elem_of_In in Hm. simpl in Hm.
    destruct Hm as [<- | [<- | []]]; reflexivity.
  - reflexivity.
Defined.

Lemma search_refined_query_narrows_witness :
  let tables := JS.asciiTables in
  map location_of (searchMatches "Meth Lab" sample) `sublist_of`
  map location_of (searchMatches " lab" sample).
Proof.
  apply (search_refined_query_narrows (tables := JS.asciiTables) " lab" "Meth Lab" sample);
    reflexivity.
Defined.


End SearchMore.

(** ** More about the loader (map.js 94-206) *)

Module LoaderMore.
Import Loader.

(** The marker [loadCategories] makes for an entry under stamp [n], and
    the entry with this marker stored in it *)
Definition markerAt (n : nat) (l : location) : Marker :=
  mkMarker n (JS.parseFloat (lat l), JS.parseFloat (lng l)) (name l).

Definition withMarker (n : nat) (l : location) : location :=
  mkLocation (lat l) (lng l) (name l) (info l) (img l) (relatedItems l)
             (Some (markerAt n l)).

(** The entries stamped from [n] on, in order *)
Fixpoint stampAll (n : nat) (locs : list location) : list location :=
  match locs with
  | [] => []
  | l :: rest => withMarker n l :: stampAll (S n) rest
  end.

(** Their markers put on a group *)
Fixpoint attachAll (n : nat) (locs : list location) (g : gmap nat Marker)
  : gmap nat Marker :=
  match locs with
  | [] => g
  | l :: rest => attachAll (S n) rest (<[n := markerAt n l]> g)
  end.

Definition entries (c : string * categoryData) : list location :=
  default [] (locations c.2).

(** The document with every entry stamped, category after category *)
Fixpoint stampDoc (n : nat) (d : document) : document :=
  match d with
  | [] => []
  | c :: rest =>
      (c.1, mkCategory (color c.2) (Some (stampAll n (entries c))))
      :: stampDoc (n + length (entries c)) rest
  end.

(** The accordion of a document: each category with the names of its
    entries *)
Definition accordion (d : document) : list (string * list string) :=
  map (λ c, (c.1, map name (entries c))) d.

Section WellFormed.
Variable validLatLng : JS.number → JS.number → bool.

Definition accepted (l : location) : bool :=
  validLatLng (JS.parseFloat (lat l)) (JS.parseFloat (lng l)).

(** Every category has its array and the surface takes every entry. *)
Definition wellFormed (d : document) : bool :=
  forallb (λ c, match locations c.2 with
                | Some locs => forallb accepted locs
                | None => false
                end) d.

Lemma placeLocations_all locs : ∀ st,
  forallb accepted locs = true →
  placeLocations validLatLng locs st =
    (mkState (categories st) (attachAll (nextStamp st) locs (markersGroup st))
             (nextStamp st + length locs) (sidebar st) (fetches st) (console st),
     stampAll (nextStamp st) locs, None).
Proof.
  induction locs as [| l rest IH]; intros st Hall.
  - cbn. rewrite Nat.add_0_r. by destruct st.
  - cbn [forallb] in Hall. apply andb_true_iff in Hall as [Hl Hrest].
    cbn [placeLocations]. unfold accepted in Hl. rewrite Hl.
    rewrite IH by done. cbn. do 3 f_equal. lia.
Qed.

Lemma attachAll_app n a b (g : gmap nat Marker) :
  attachAll n (a ++ b) g = attachAll (n + length a) b (attachAll n a g).
Proof.
  revert n g. induction a as [| l a IH]; intros n g; cbn.
  - by rewrite Nat.add_0_r.
  - rewrite IH. f_equal. lia.
Qed.

Lemma placeCategories_all d : ∀ fragment st,
  wellFormed d = true →
  placeCategories validLatLng d fragment st =
    (mkState (categories st)
             (attachAll (nextStamp st) (flat_map entries d) (markersGroup st))
             (nextStamp st + length (flat_map entries d))
             (sidebar st) (fetches st) (console st),
     stampDoc (nextStamp st) d, fragment ++ accordion d, None).
Proof.
  induction d as [| [c cd] rest IH]; intros fragment st Hwf.
  - cbn. rewrite Nat.add_0_r, app_nil_r. by destruct st.
  - cbn [wellFormed forallb] in Hwf. apply andb_true_iff in Hwf as [Hc Hrest].
    cbn [snd] in Hc. destruct (locations cd) as [locs|] eqn:El; [| done].
    cbn [placeCategories]. rewrite El, placeLocations_all by done.
    assert (entries (c, cd) = locs) as He by (unfold entries; cbn; by rewrite El).
    rewrite IH by done. cbn [flat_map stampDoc accordion map fst snd].
    cbn [nextStamp markersGroup categories sidebar fetches console color].
    rewrite !He, attachAll_app, length_app, <- app_assoc, Nat.add_assoc.
    reflexivity.
Qed.

End WellFormed.

Lemma attachAll_lookup locs : ∀ n (g : gmap nat Marker) k,
  attachAll n locs g !! k =
    if decide (n ≤ k < n + length locs)%nat
    then markerAt k <$> locs !! (k - n)%nat
    else g !! k.
Proof.
  induction locs as [| l rest IH]; intros n g k; cbn [attachAll length].
  - rewrite decide_False by lia. done.
  - rewrite IH. destruct (decide (S n ≤ k < S n + length rest)%nat) as [Hin | Hout].
    + rewrite decide_True by lia.
      replace (k - n)%nat with (S (k - S n)) by lia. done.
    + destruct (decide (k = n)) as [-> | Hne].
      * rewrite lookup_insert_eq, decide_True by lia. by rewrite Nat.sub_diag.
      * rewrite lookup_insert_ne by done. by rewrite decide_False by lia.
Qed.

Lemma omap_all_none {A B} (f : A → option B) l :
  (∀ x, x ∈ l → f x = None) → omap f l = [].
Proof.
  induction l as [| x l IH]; intros H; [done |]. cbn.
  rewrite (H x) by (by left). apply IH. intros y Hy. apply H. by right.
Qed.

Lemma omap_seq_list {B} (ws : list B) : ∀ n (f : nat → option B),
  (∀ i, (i < length ws)%nat → f (n + i)%nat = ws !! i) →
  omap f (seq n (length ws)) = ws.
Proof.
  induction ws as [| w ws IH]; intros n f Hf; [done |]. cbn.
  specialize (Hf 0%nat ltac:(cbn; lia)) as H0. rewrite Nat.add_0_r in H0.
  rewrite H0. cbn. f_equal. apply IH. intros i Hi.
  specialize (Hf (S i) ltac:(cbn; lia)). by rewrite Nat.add_succ_r in Hf.
Qed.

Definition triple (l : location) : JS.number * JS.number * string :=
  (JS.parseFloat (lat l), JS.parseFloat (lng l), name l).

Lemma wanted_entries d : wanted d = map triple (flat_map entries d).
Proof.
  induction d as [| [c cd] rest IH]; [done |].
  cbn [wanted flat_map] in *. rewrite map_app, <- IH. f_equal.
  unfold entries. cbn. by destruct (locations cd).
Qed.

(** The markers read off a group that holds, from stamp [n] on, the
    markers of [locs] and nothing below [n] *)
Lemma placed_attachAll cats n locs sb fs cs :
  placed (mkState cats (attachAll n locs ∅) (n + length locs) sb fs cs) =
    map triple locs.
Proof.
  unfold placed. cbn [markersGroup nextStamp].
  rewrite seq_app, omap_app. rewrite omap_all_none.
  - cbn [app Nat.add]. rewrite <- (length_map triple locs). apply omap_seq_list.
    intros i Hi. rewrite length_map in Hi.
    rewrite attachAll_lookup, decide_True by lia.
    replace (n + i - n)%nat with i by lia.
    rewrite list_lookup_fmap. by destruct (locs !! i).
  - intros k Hk%list_elem_of_In%in_seq.
    rewrite attachAll_lookup, decide_False by lia. by rewrite lookup_empty.
Qed.

Fixpoint markersFrom (n : nat) (locs : list location) : list Marker :=
  match locs with
  | [] => []
  | l :: rest => markerAt n l :: markersFrom (S n) rest
  end.

Lemma stampAll_app n a b :
  stampAll n (a ++ b) = stampAll n a ++ stampAll (n + length a) b.
Proof.
  revert n. induction a as [| l a IH]; intros n; cbn.
  - by rewrite Nat.add_0_r.
  - rewrite IH. do 3 f_equal. lia.
Qed.

Lemma length_stampAll n locs : length (stampAll n locs) = length locs.
Proof. revert n. induction locs as [| l r IH]; intros n; cbn; [done | by rewrite IH]. Qed.

Lemma allLocations_stampDoc d : ∀ n,
  Search.allLocations (stampDoc n d) = stampAll n (flat_map entries d).
Proof.
  induction d as [| c rest IH]; intros n; [done |].
  cbn [stampDoc flat_map]. unfold Search.allLocations in *. cbn [flat_map snd locations].
  cbn [default from_option]. by rewrite IH, stampAll_app.
Qed.

Lemma allMarkers_stampAll n locs : omap marker (stampAll n locs) = markersFrom n locs.
Proof. revert n. induction locs as [| l r IH]; intros n; cbn; [done | by rewrite IH]. Qed.

Lemma markersFrom_attached locs : ∀ n (g : gmap nat Marker),
  Forall (λ m, attachAll n locs g !! stamp m = Some m) (markersFrom n locs).
Proof.
  induction locs as [| l rest IH]; intros n g; cbn [markersFrom attachAll]; constructor.
  - rewrite attachAll_lookup, decide_False by (cbn; lia). cbn. apply lookup_insert_eq.
  - apply IH.
Qed.

Section WellFormedLoad.
Variable validLatLng : JS.number → JS.number → bool.

(** One successful answer, from the call on *)
Lemma run_one_load f d st :
  run validLatLng [EvLoadData f; EvFetchSettles (length (fetches st)) (Json d)] st =
    fetchSettled validLatLng (Json d)
      (mkState (categories st) ∅ (nextStamp st) [] (fetches st) (console st)).
Proof.
  unfold run. cbn [fold_left step loadData fetches].
  rewrite Authoring.lookup_snoc. cbn [categories markersGroup nextStamp sidebar console].
  by rewrite Authoring.delete_snoc.
Qed.

(** X5: a well-formed document is placed exactly.  When every
    category has its array of locations and the surface takes every
    coordinate pair, [loadData] followed by the answer of its fetch
    leaves on the group exactly one marker per entry, in document
    order, at the parsed coordinates and titled with the name; every
    entry holds its marker, which is on the group under its stamp; the
    sidebar lists the categories with the names of their entries;
    nothing is logged. *)
Theorem well_formed_load_places_document (f : string) (d : document) (st : state) :
  wellFormed validLatLng d = true →
  let s := run validLatLng
             [EvLoadData f; EvFetchSettles (length (fetches st)) (Json d)] st in
  placed s = wanted d ∧
  categories s = stampDoc (nextStamp st) d ∧
  Forall (λ m, markersGroup s !! stamp m = Some m) (Search.allMarkers (categories s)) ∧
  sidebar s = accordion d ∧
  fetches s = fetches st ∧
  console s = console st.
Proof.
  intros Hwf s. subst s. rewrite run_one_load.
  unfold fetchSettled, loadCategories. cbn [categories].
  rewrite placeCategories_all by done.
  cbn [markersGroup nextStamp sidebar fetches console categories app].
  split_and!; try done.
  - rewrite wanted_entries. apply placed_attachAll.
  - unfold Search.allMarkers. rewrite allLocations_stampDoc, allMarkers_stampAll.
    apply markersFrom_attached.
Qed.

End WellFormedLoad.

Lemma well_formed_load_places_document_witness :
  let s := run strict [EvLoadData "categories.json";
                       EvFetchSettles (length (fetches init)) (Json docB)] init in
  placed s = wanted docB ∧
  categories s = stampDoc (nextStamp init) docB ∧
  Forall (λ m, markersGroup s !! stamp m = Some m) (Search.allMarkers (categories s)) ∧
  sidebar s = accordion docB ∧
  fetches s = fetches init ∧
  console s = console init.
Proof.
  apply (well_formed_load_places_document strict "categories.json" docB init).
  reflexivity.
Defined.

Section Aborts.
Variable validLatLng : JS.number → JS.number → bool.

Definition missingArray : string :=
  "Cannot read properties of undefined (reading 'forEach')".

Lemma placeCategories_missing pre c col post : ∀ fragment st,
  wellFormed validLatLng pre = true →
  placeCategories validLatLng (pre ++ (c, mkCategory col None) :: post) fragment st =
    (mkState (categories st)
             (attachAll (nextStamp st) (flat_map entries pre) (markersGroup st))
             (nextStamp st + length (flat_map entries pre))
             (sidebar st) (fetches st) (console st),
     stampDoc (nextStamp st) pre ++ (c, mkCategory col None) :: post,
     fragment ++ accordion pre, Some missingArray).
Proof.
  induction pre as [| [c0 cd] pre IH]; intros fragment st Hwf.
  - cbn. rewrite Nat.add_0_r, app_nil_r. by destruct st.
  - cbn [wellFormed forallb] in Hwf. apply andb_true_iff in Hwf as [Hc Hrest].
    cbn [snd] in Hc. destruct (locations cd) as [locs|] eqn:El; [| done].
    assert (entries (c0, cd) = locs) as He by (unfold entries; cbn; by rewrite El).
    rewrite <- app_comm_cons. cbn [placeCategories].
    rewrite El, placeLocations_all by done.
    rewrite IH by done. cbn [flat_map stampDoc accordion map fst snd].
    cbn [nextStamp markersGroup categories sidebar fetches console color].
    rewrite !He, attachAll_app, length_app, <- app_assoc, Nat.add_assoc.
    reflexivity.
Qed.

(** X6: a category without a [locations] array ends the load.  The
    categories before it (well formed) keep the markers they were
    given, the category itself and every category after it get none,
    the sidebar stays empty, and the error is logged. *)
Theorem missing_locations_array_aborts
    (f c col : string) (pre post : document) (st : state) :
  wellFormed validLatLng pre = true →
  let d := pre ++ (c, mkCategory col None) :: post in
  let s := run validLatLng
             [EvLoadData f; EvFetchSettles (length (fetches st)) (Json d)] st in
  placed s = wanted pre ∧
  categories s = stampDoc (nextStamp st) pre ++ (c, mkCategory col None) :: post ∧
  sidebar s = [] ∧
  console s = console st ++ ["Error loading JSON file: " +:+ missingArray].
Proof.
  intros Hwf d s. subst s d. rewrite run_one_load.
  unfold fetchSettled, loadCategories. cbn [categories].
  rewrite placeCategories_missing by done.
  cbn [consoleError markersGroup nextStamp sidebar fetches console categories].
  split_and!; try done.
  rewrite wanted_entries.
  apply (placed_attachAll _ (nextStamp st) (flat_map entries pre)).
Qed.

Definition isFailure (e : event) : bool :=
  match e with
  | EvFetchSettles _ (Json _) => false
  | _ => true
  end.

(** X7: answers that carry no document change neither the data model
    nor the stamps, and place no marker: after any calls of [loadData]
    and any failed answers (network error, bad status, bad JSON) the
    categories are those of before and the group holds nothing new. *)
Theorem failed_answers_place_nothing (tr : list event) (st : state) :
  forallb isFailure tr = true →
  let s := run validLatLng tr st in
  categories s = categories st ∧
  nextStamp s = nextStamp st ∧
  markersGroup s ⊆ markersGroup st ∧
  (length (console st) ≤ length (console s))%nat.
Proof.
  revert st. induction tr as [| e tr IH]; intros st Hall s; subst s.
  { by split_and!. }
  cbn [forallb] in Hall. apply andb_true_iff in Hall as [He Hall].
  cbn [run fold_left]. fold (run validLatLng tr (step validLatLng st e)).
  destruct (IH (step validLatLng st e) Hall) as (Hc & Hn & Hg & Hl).
  rewrite Hc, Hn.
  assert (categories (step validLatLng st e) = categories st ∧
          nextStamp (step validLatLng st e) = nextStamp st ∧
          markersGroup (step validLatLng st e) ⊆ markersGroup st ∧
          (length (console st) ≤ length (console (step validLatLng st e)))%nat)
    as (Hc1 & Hn1 & Hg1 & Hl1).
  { destruct e as [f | k r]; cbn.
    - split_and!; try done. apply map_empty_subseteq.
    - destruct (fetches st !! k); [| by split_and!].
      destruct r; try discriminate; cbn; rewrite ?length_app; split_and!;
        try done; cbn; lia. }
  split_and!; try done; [by etrans | lia].
Qed.

End Aborts.

Lemma missing_locations_array_aborts_witness :
  let d := docA ++ ("Broken", mkCategory "grey" None) :: docB in
  let s := run strict [EvLoadData "categories.json";
                       EvFetchSettles (length (fetches init)) (Json d)] init in
  placed s = wanted docA ∧
  categories s = stampDoc (nextStamp init) docA ++ ("Broken", mkCategory "grey" None) :: docB ∧
  sidebar s = [] ∧
  console s = console init ++ ["Error loading JSON file: " +:+ missingArray].
Proof.
  apply (missing_locations_array_aborts strict "categories.json" "Broken" "grey"
           docA docB init).
  reflexivity.
Defined.

Lemma failed_answers_place_nothing_witness :
  let st := run strict [EvLoadData "a.json"; EvFetchSettles 0 (Json docA)] init in
  let s := run strict [EvLoadData "b.json"; EvFetchSettles 0 HttpError;
                       EvLoadData "c.json"; EvFetchSettles 0 BadJson] st in
  categories s = categories st ∧
  nextStamp s = nextStamp st ∧
  markersGroup s ⊆ markersGroup st ∧
  (length (console st) ≤ length (console s))%nat.
Proof.
  apply (failed_answers_place_nothing strict
           [EvLoadData "b.json"; EvFetchSettles 0 HttpError;
            EvLoadData "c.json"; EvFetchSettles 0 BadJson]
           (run strict [EvLoadData "a.json"; EvFetchSettles 0 (Json docA)] init)).
  reflexivity.
Defined.

(** X8: loading, searching and clearing compose.  After a well-formed
    document was loaded, a search with any text followed by a search
    with a blank text shows exactly the markers the load had placed. *)
Theorem load_search_clear {tables : JS.CaseTables}
    (validLatLng : JS.number → JS.number → bool)
    (f v1 v2 : string) (d : document) (st : state) :
  wellFormed validLatLng d = true →
  JS.isBlank v2 = true →
  let s := run validLatLng
             [EvLoadData f; EvFetchSettles (length (fetches st)) (Json d)] st in
  let g1 := (Search.onInput v1 (categories s) (markersGroup s)).1 in
  Search.onInput v2 (categories s) g1 = (markersGroup s, Search.mkPanel false []).
Proof.
  intros Hwf Hb s g1. subst g1. apply SearchMore.clear_after_search; [| done].
  intros m Hm. subst s. rewrite run_one_load in *.
  unfold fetchSettled, loadCategories in *. cbn [categories] in *.
  rewrite placeCategories_all in * by done.
  cbn [markersGroup categories] in *.
  unfold Search.allMarkers in Hm.
  rewrite allLocations_stampDoc, allMarkers_stampAll in Hm.
  pose proof (markersFrom_attached (flat_map entries d) (nextStamp st) ∅) as Hall.
  rewrite Forall_forall in Hall. by apply Hall.
Qed.

Lemma load_search_clear_witness :
  let tables := JS.asciiTables in
  let s := run strict [EvLoadData "categories.json";
                       EvFetchSettles (length (fetches init)) (Json Search.sample)] init in
  let g1 := (Search.onInput "dock" (categories s) (markersGroup s)).1 in
  Search.onInput " " (categories s) g1 = (markersGroup s, Search.mkPanel false []).
Proof.
  apply (load_search_clear (tables := JS.asciiTables)
           strict "categories.json" "dock" " " Search.sample init);
    reflexivity.
Defined.

End LoaderMore.

(** ** More about the image cache (map.js 28-69) *)

Module ImageCacheMore.
Import ImageCache.

(** The memo table and the promise table fit together: every entry
    names a promise that exists, no two urls share a promise, and
    there is one promise per load that was started. *)
Definition coherent (st : state) : Prop :=
  (∀ u p, imageLoadCache st !! u = Some p → (p < length (promises st))%nat) ∧
  (∀ u u' p, imageLoadCache st !! u = Some p →
             imageLoadCache st !! u' = Some p → u = u') ∧
  length (promises st) = length (started st).

(** [st'] differs from [st] in nothing the memo depends on. *)
Definition sameMemo (st st' : state) : Prop :=
  imageLoadCache st' = imageLoadCache st ∧
  length (promises st') = length (promises st) ∧
  started st' = started st.

(** [st'] is reached from [st] by calls of [loadImage] and by changes
    that leave the memo alone. *)
Inductive reach : state → state → Prop :=
| reach_refl st : reach st st
| reach_load u st st' : reach (loadImage u st).2 st' → reach st st'
| reach_same st st1 st' : sameMemo st st1 → reach st1 st' → reach st st'.

Lemma reach_trans a b c : reach a b → reach b c → reach a c.
Proof.
  induction 1 as [| u st st' _ IH | st st1 st' Hs _ IH]; intros Hc; [done | |].
  - eapply reach_load. by apply IH.
  - eapply reach_same; [exact Hs | by apply IH].
Qed.

Lemma reach_one_same st st' : sameMemo st st' → reach st st'.
Proof. intros H. eapply reach_same; [exact H | apply reach_refl]. Qed.

Lemma reach_advance urls : ∀ st, reach st (advance urls st).
Proof.
  induction urls as [| u rest IH]; intros st; cbn [advance]; [apply reach_refl |].
  apply (reach_load u). destruct (loadImage u st) as [p st1]. cbn [snd].
  destruct (promises st1 !! p) as [ps|]; [| apply reach_one_same; by split_and!].
  destruct (awaited u ps) as [o|]; [| apply reach_one_same; by split_and!].
  unfold afterAwait. destruct o; cbn; apply IH.
Qed.

Lemma reach_fold {A} (f : state → A → state) l :
  (∀ s a, reach s (f s a)) → ∀ st, reach st (fold_left f l st).
Proof.
  intros Hf. induction l as [| a l IH]; intros st; cbn; [apply reach_refl |].
  eapply reach_trans; [apply Hf | apply IH].
Qed.

Lemma reach_step st e : reach st (step st e).
Proof.
  destruct e as [u | urls limit | k | p ok]; cbn [step].
  - apply (reach_load u), reach_refl.
  - unfold warmCache. destruct (toWarm _ _ _); [apply reach_refl |].
    apply reach_one_same; by split_and!.
  - unfold idle. destruct (scheduled st !! k); [| apply reach_refl].
    eapply reach_same; [| apply reach_advance]. by split_and!.
  - unfold settle. destruct (promises st !! p) as [[| |]|]; try apply reach_refl.
    eapply reach_same; [| apply reach_fold].
    + split_and!; cbn; [done | by rewrite length_insert | done].
    + intros s w. destruct (awaited _ _) as [o|]; [| apply reach_one_same; by split_and!].
      unfold afterAwait. destruct o; cbn; apply reach_advance.
Qed.

Lemma reach_run tr : ∀ st, reach st (run tr st).
Proof. intros st. apply reach_fold. intros s a. apply reach_step. Qed.

Lemma coherent_loadImage u st : coherent st → coherent (loadImage u st).2.
Proof.
  intros (Hv & Hi & Hl). unfold loadImage.
  destruct (imageLoadCache st !! u) as [p|] eqn:E; [done |].
  split_and!; cbn.
  - intros u' p. rewrite length_app. cbn. destruct (decide (u = u')) as [<- | Hne].
    + rewrite lookup_insert_eq. intros [= <-]. lia.
    + rewrite lookup_insert_ne by done. intros H%Hv. lia.
  - intros u1 u2 p.
    destruct (decide (u = u1)) as [<- | H1]; destruct (decide (u = u2)) as [<- | H2];
      rewrite ?lookup_insert_eq, ?lookup_insert_ne by done; try done.
    + intros [= <-] H%Hv. lia.
    + intros H%Hv [= <-]. lia.
    + apply Hi.
  - rewrite !length_app. cbn. lia.
Qed.

Lemma coherent_reach st st' : reach st st' → coherent st → coherent st'.
Proof.
  induction 1 as [| u st st' _ IH | st st1 st' (Hc & Hp & Hs) _ IH]; intros H; [done | |].
  - by apply IH, coherent_loadImage.
  - apply IH. destruct H as (Hv & Hi & Hl). unfold coherent.
    rewrite Hc, Hp, Hs. done.
Qed.

Lemma coherent_init : coherent init.
Proof. split_and!; [| | done]; intros *; cbn; by rewrite lookup_empty. Qed.

(** X9: in every state the session can reach, each memo entry names
    an existing promise, different urls have different promises, and
    the number of promises is the number of loads started. *)
Theorem memo_table_coherent (tr : list event) : coherent (run tr init).
Proof. eapply coherent_reach; [apply reach_run | apply coherent_init]. Qed.

(** *** The warm-up comes to its end *)

(** The event loop settling, one after the other, whatever promise the
    warm loop is waiting for; [oks] are the results. *)
Fixpoint drain (oks : list bool) (st : state) : state :=
  match oks with
  | [] => st
  | ok :: rest =>
      match parked st with
      | wt :: _ => drain rest (settle (w_promise wt) ok st)
      | [] => st
      end
  end.

Definition cached (st : state) (u : string) : Prop :=
  is_Some (imageLoadCache st !! u).

Definition valid (st : state) : Prop :=
  ∀ u p, imageLoadCache st !! u = Some p → (p < length (promises st))%nat.

Lemma loadImage_valid u st :
  valid st →
  valid (loadImage u st).2 ∧
  imageLoadCache (loadImage u st).2 !! u = Some (loadImage u st).1 ∧
  (∀ u', cached st u' → cached (loadImage u st).2 u').
Proof.
  intros Hv. unfold loadImage, cached.
  destruct (imageLoadCache st !! u) as [p|] eqn:E; cbn; [done |].
  split_and!.
  - intros u' p. cbn. rewrite length_app. cbn.
    destruct (decide (u = u')) as [<- | Hne].
    + rewrite lookup_insert_eq. intros [= <-]. lia.
    + rewrite lookup_insert_ne by done. intros H%Hv. lia.
  - apply lookup_insert_eq.
  - intros u' [p Hp]. destruct (decide (u = u')) as [<- | Hne]; [congruence |].
    rewrite lookup_insert_ne by done. eauto.
Qed.

(** Where a warm loop over [rest] stands when it stops: at its end
    with every url of [rest] in the memo, or waiting for a pending
    promise with fewer urls left. *)
Definition stopped (rest : list string) (s : state) : Prop :=
  (parked s = [] ∧ ∀ u, u ∈ rest → cached s u) ∨
  (∃ wt, parked s = [wt] ∧
         promises s !! w_promise wt = Some Pending ∧
         (length (w_rest wt) < length rest)%nat ∧
         ∀ u, u ∈ rest → cached s u ∨ u ∈ w_rest wt).

Lemma advance_live rest : ∀ st,
  valid st → parked st = [] → scheduled st = [] →
  valid (advance rest st) ∧ scheduled (advance rest st) = [] ∧
  (∀ u, cached st u → cached (advance rest st) u) ∧
  stopped rest (advance rest st).
Proof.
  induction rest as [| u rest IH]; intros st Hv Hp Hs; cbn [advance].
  { split_and!; try done. left. split; [done |]. by intros u ?%elem_of_nil. }
  destruct (loadImage_valid u st Hv) as (Hv1 & Hu & Hmono).
  destruct (loadImage_queues u st) as [Hq1 Hp1].
  destruct (loadImage u st) as [p st1]. cbn [fst snd] in *.
  rewrite Hs in Hq1. rewrite Hp in Hp1.
  assert (cached st1 u) as Hcu by (by exists p).
  destruct (promises st1 !! p) as [ps|] eqn:Eps.
  2: { apply Hv1 in Hu. apply lookup_ge_None in Eps. lia. }
  assert (ps = Pending → 
          valid (park (mkWaiter p u rest) st1) ∧
          scheduled (park (mkWaiter p u rest) st1) = [] ∧
          (∀ u0, cached st u0 → cached (park (mkWaiter p u rest) st1) u0) ∧
          stopped (u :: rest) (park (mkWaiter p u rest) st1)) as Hpark.
  { intros ->. split_and!; try done. right. eexists. cbn. rewrite Hp1.
    split_and!; [done | done | cbn; lia |].
    intros u0 [-> | ?]%elem_of_cons; [by left | by right]. }
  assert (valid (advance rest st1) ∧ scheduled (advance rest st1) = [] ∧
          (∀ u0, cached st u0 → cached (advance rest st1) u0) ∧
          stopped (u :: rest) (advance rest st1)) as Hgo.
  { destruct (IH st1 Hv1 Hp1 Hq1) as (Hv2 & Hs2 & Hm2 & Hst).
    split_and!; [done | done | by auto |].
    destruct Hst as [[Hpk Hall] | (wt & Hpk & Hpend & Hlen & Hall)].
    - left. split; [done |]. intros u0 [-> | ?]%elem_of_cons; auto.
    - right. exists wt. split_and!; [done | done | cbn; lia |].
      intros u0 [-> | ?]%elem_of_cons; auto. }
  destruct ps; cbn [awaited]; [by apply Hpark | exact Hgo | exact Hgo].
Qed.

(** A settled promise wakes the one loop that waits for it. *)
Lemma settle_single p u rest ok st :
  promises st !! p = Some Pending →
  parked st = [mkWaiter p u rest] →
  settle p ok st =
    advance rest (mkState (imageLoadCache st)
                          (<[p := if ok then Resolved else Rejected]> (promises st))
                          (started st) (scheduled st) [] (uncaught st)).
Proof.
  intros Hp Hw. unfold settle. rewrite Hp, Hw.
  rewrite !filter_cons, !filter_nil. cbn [w_promise].
  rewrite decide_True by done. rewrite decide_False by tauto.
  by destruct ok.
Qed.

Lemma drain_live oks : ∀ (W : list string) rest s,
  valid s → scheduled s = [] → stopped rest s →
  (length rest ≤ length oks)%nat →
  (∀ u, u ∈ W → cached s u ∨ u ∈ rest) →
  parked (drain oks s) = [] ∧ ∀ u, u ∈ W → cached (drain oks s) u.
Proof.
  induction oks as [| ok oks IH]; intros W rest s Hv Hs Hst Hlen HW.
  - destruct rest; [| cbn in Hlen; lia].
    destruct Hst as [[Hpk _] | (wt & _ & _ & Hl & _)]; [| cbn in Hl; lia].
    cbn. split; [done |]. intros u Hu. by destruct (HW u Hu) as [? | ?%elem_of_nil].
  - destruct Hst as [[Hpk Hall] | (wt & Hpk & Hpend & Hl & Hall)].
    + cbn. rewrite Hpk. split; [done |]. intros u Hu.
      destruct (HW u Hu); auto.
    + cbn [drain]. rewrite Hpk. destruct wt as [p u0 rest0]. cbn [w_promise w_rest] in *.
      rewrite (settle_single p u0 rest0 ok s Hpend Hpk).
      set (s0 := mkState _ _ _ _ _ _).
      assert (valid s0) as Hv0.
      { intros u p'. cbn. rewrite length_insert. apply Hv. }
      destruct (advance_live rest0 s0 Hv0 eq_refl Hs) as (Hv1 & Hs1 & Hm1 & Hst1).
      apply (IH W rest0); [done | done | done | cbn in Hlen; lia |].
      intros u Hu. destruct (HW u Hu) as [Hc | Hr].
      * left. by apply Hm1.
      * destruct (Hall u Hr) as [Hc | Hr0]; [| by right].
        left. by apply Hm1.
Qed.

Lemma drain_uncaught oks : ∀ s, uncaught (drain oks s) = uncaught s.
Proof.
  induction oks as [| ok oks IH]; intros s; [done |]. cbn.
  destruct (parked s) as [| wt ?]; [done |]. rewrite IH.
  by destruct (settle_extends (w_promise wt) ok s) as (_ & _ & _ & ->).
Qed.

(** X10: the warm-up reaches every url it chose.  From a state with
    nothing else queued, after [warmCache] and the idle callback, once
    the promises the loop waits for have settled (as many results as
    urls chosen are enough, and failures count like successes), no
    loop is left waiting, every chosen url has its memo entry, and no
    exception has left the loop. *)
Theorem warm_up_completes
    (urls : list string) (limit : option Z) (st : state) (oks : list bool) :
  valid st → scheduled st = [] → parked st = [] →
  (length (toWarm urls (default 8%Z limit) st) ≤ length oks)%nat →
  let s := drain oks (idle 0 (warmCache urls limit st)) in
  parked s = [] ∧
  (∀ u, u ∈ toWarm urls (default 8 limit) st → cached s u) ∧
  uncaught s = uncaught st.
Proof.
  intros Hv Hs Hp Hlen s. subst s. rewrite drain_uncaught.
  destruct (idle_extends 0 (warmCache urls limit st)) as (_ & _ & _ & ->).
  destruct (warmCache_extends urls limit st) as (_ & _ & _ & ->).
  cut (parked (drain oks (idle 0 (warmCache urls limit st))) = [] ∧
       ∀ u, u ∈ toWarm urls (default 8 limit) st →
            cached (drain oks (idle 0 (warmCache urls limit st))) u).
  { intros [? ?]. by split_and!. }
  unfold warmCache. destruct (toWarm urls (default 8 limit) st) as [| u0 w0] eqn:Ew.
  { unfold idle. rewrite Hs. cbn. destruct oks; cbn; rewrite ?Hp;
      (split; [done | by intros u ?%elem_of_nil]). }
  unfold idle. cbn [scheduled]. rewrite Hs. cbn [app lookup list_lookup].
  cbn [imageLoadCache promises started parked uncaught].
  set (s0 := mkState _ _ _ _ _ _).
  assert (valid s0) as Hv0 by done.
  destruct (advance_live (u0 :: w0) s0 Hv0 Hp eq_refl) as (Hv1 & Hs1 & Hm1 & Hst1).
  apply (drain_live oks (u0 :: w0) (u0 :: w0)); try done.
  intros u Hu. by right.
Qed.

Lemma warm_up_completes_witness :
  let urls := ["a.png"; "b.png"; "c.png"] in
  let s := drain [false; true] (idle 0 (warmCache urls (Some 2) init)) in
  parked s = [] ∧
  (∀ u, u ∈ toWarm urls (default 8 (Some 2)) init → cached s u) ∧
  uncaught s = uncaught init.
Proof.
  apply (warm_up_completes ["a.png"; "b.png"; "c.png"] (Some 2) init [false; true]).
  - intros u p H. cbn in H. by rewrite lookup_empty in H.
  - reflexivity.
  - reflexivity.
  - vm_compute. lia.
Defined.

(** *** The warm-up from call to end *)

(** The warm-up, run to its end, leaves every url of the slice in the
    memo: the ones it chose and the ones that were there. *)
Lemma warm_reaches_slice urls limit c oks :
  valid c →
  scheduled c = [] → parked c = [] →
  (length (toWarm urls (default 8%Z limit) c) ≤ length oks)%nat →
  let s := drain oks (idle 0 (warmCache urls limit c)) in
  parked s = [] ∧
  ∀ u, u ∈ JS.slice0 urls (default 8%Z limit) → cached s u.
Proof.
  intros Hv Hs Hp Hlen s. subst s.
  assert (∀ u, u ∈ JS.slice0 urls (default 8%Z limit) →
               cached c u ∨ u ∈ toWarm urls (default 8%Z limit) c)
    as Hsplit.
  { intros u Hu. unfold cached, toWarm.
    destruct (imageLoadCache c !! u) as [p|] eqn:E; [left; eauto |].
    right. apply list_elem_of_filter. by split. }
  unfold warmCache.
  destruct (toWarm urls (default 8%Z limit) c) as [| u0 w0] eqn:Ew.
  { unfold idle. rewrite Hs. cbn [lookup list_lookup].
    assert (drain oks c = c) as ->.
    { destruct oks; cbn; [done | by rewrite Hp]. }
    split; [done |]. intros u Hu. by destruct (Hsplit u Hu) as [? | ?%elem_of_nil]. }
  unfold idle. cbn [scheduled]. rewrite Hs. cbn [app lookup list_lookup].
  cbn [imageLoadCache promises started
       parked uncaught].
  set (s0 := mkState _ _ _ _ _ _).
  assert (valid s0) as Hv0 by done.
  destruct (advance_live (u0 :: w0) s0 Hv0 Hp eq_refl) as (Hv1 & Hs1 & Hm1 & Hst1).
  apply (drain_live oks (JS.slice0 urls (default 8%Z limit)) (u0 :: w0));
    try done.
  intros u Hu. destruct (Hsplit u Hu) as [Hc | ?]; [| by right].
  left. by apply Hm1.
Qed.





End ImageCacheMore.

(** ** More about marker authoring (map.js 346-473) *)

Module AuthoringMore.
Import Authoring.

(** The row the popup starts with (lines 382-386), the [+ Add Item]
    button (lines 404-417) and the remove button of the [i]-th row
    (lines 421-428) *)
Definition initialRows : list row := [mkRow "" ""].
Definition addRelatedItem (rs : list row) : list row := rs ++ [mkRow "" ""].
Definition removeRelatedItem (i : nat) (rs : list row) : list row := delete i rs.

Lemma collect_app rs rs' :
  collectRelatedItems (rs ++ rs') = collectRelatedItems rs ++ collectRelatedItems rs'.
Proof. by rewrite !collectRelatedItems_spec, !fmap_app, filter_app. Qed.

(** A list cut around its [i]-th element *)
Lemma cut_around {A} (i : nat) (l : list A) :
  l = take i l ++ take 1 (drop i l) ++ drop (S i) l.
Proof.
  rewrite <- (take_drop i l) at 1. f_equal.
  rewrite <- (take_drop 1 (drop i l)) at 1. f_equal.
  by rewrite drop_drop, Nat.add_1_r.
Qed.

(** X11: what reaches [relatedItems].  Every exported item is a
    non-empty text without white space at either end; rows left blank
    export nothing, so the row the popup starts with and rows added
    with [+ Add Item] do not change the export until they are filled
    in; removing a row removes the item of that row, if it has one,
    and nothing else: the items of the rows before it and after it
    stay, in their order. *)
Theorem related_items_clean (rs : list row) (i : nat) :
  let before := collectRelatedItems (take i rs) in
  let own := collectRelatedItems (take 1 (drop i rs)) in
  let after := collectRelatedItems (drop (S i) rs) in
  Forall (λ s, s ≠ "" ∧ JS.trim s = s) (collectRelatedItems rs) ∧
  collectRelatedItems initialRows = [] ∧
  collectRelatedItems (addRelatedItem rs) = collectRelatedItems rs ∧
  collectRelatedItems rs = before ++ own ++ after ∧
  collectRelatedItems (removeRelatedItem i rs) = before ++ after ∧
  (length own ≤ 1)%nat ∧
  (length (collectRelatedItems rs) ≤ length rs)%nat.
Proof.
  intros before own after. split_and!.
  - rewrite collectRelatedItems_spec. apply Forall_forall.
    intros s [Hne Hin]%list_elem_of_filter. split; [done |].
    apply list_elem_of_fmap in Hin as (t & -> & _). apply JS.trim_idem.
  - done.
  - unfold addRelatedItem. rewrite collect_app. apply app_nil_r.
  - rewrite (cut_around i rs) at 1. by rewrite !collect_app.
  - unfold removeRelatedItem. by rewrite delete_take_drop, collect_app.
  - subst own. rewrite collectRelatedItems_spec.
    etrans; [apply length_filter |]. rewrite !length_fmap, length_take. lia.
  - rewrite collectRelatedItems_spec.
    etrans; [apply length_filter |]. by rewrite !length_fmap.
Qed.

Example related_items_remove :
  collectRelatedItems (removeRelatedItem 0 [mkRow "A" ""; mkRow " B " ""; mkRow "C" ""])
    = ["B"; "C"].
Proof. by vm_compute. Qed.

(** *** Drafts, timers and the copy button *)

(** The draft [m] was created and no longer shows the form. *)
Definition closed (m : nat) (st : state) : Prop :=
  (m < nextStamp st)%nat ∧
  ∀ d, layers st !! m = Some d → content d = CopiedNote.

(** Stamps on the map were handed out, and every pending timer
    belongs to a draft that no longer shows the form. *)
Definition wf (st : state) : Prop :=
  (∀ k, is_Some (layers st !! k) → (k < nextStamp st)%nat) ∧
  Forall (λ m, closed m st) (timers st).

Section Steps.
Variable numberToString : Q → string.
Variable stringify : markerData → string.
Variable hasClipboard : bool.

Local Abbreviation step' := (step numberToString stringify hasClipboard).
Local Abbreviation run' := (run numberToString stringify hasClipboard).

Lemma lookup_create ll st m :
  layers (createMarkerWithPopup ll st) !! m =
    if decide (m = nextStamp st) then Some (mkDraft ll CreateForm) else layers st !! m.
Proof.
  cbn. destruct (decide (m = nextStamp st)) as [-> | Hne].
  - apply lookup_insert_eq.
  - by apply lookup_insert_ne.
Qed.

Lemma closed_step m st e : closed m st → closed m (step' st e).
Proof.
  intros [Hlt Hc]. destruct e as [| ll | ll | m' f now | k ok | k | m']; cbn [step].
  - done.
  - unfold onMapClick. destruct (createMarkerMode st); cbn [negb]; [| done].
    split; [cbn; lia |]. intros d. rewrite lookup_create.
    rewrite decide_False by (cbn; lia). apply Hc.
  - split; [cbn; lia |]. intros d. unfold onMapDblClick. rewrite lookup_create.
    rewrite decide_False by lia. apply Hc.
  - unfold onCopyClick, copyToClipboard.
    destruct (layers st !! m') as [[ll []]|] eqn:E; try done.
    destruct hasClipboard; [| done].
    split; [done |]. intros d. cbn.
    destruct (decide (m = m')) as [-> | Hne].
    + rewrite lookup_insert_eq. by intros [= <-].
    + rewrite lookup_insert_ne by done. apply Hc.
  - unfold clipboardSettled. destruct (writes st !! k); [by destruct ok | done].
  - unfold timerFired. destruct (timers st !! k) as [m'|]; [| done].
    split; [done |]. intros d. cbn.
    destruct (decide (m = m')) as [-> | Hne].
    + by rewrite lookup_delete_eq.
    + rewrite lookup_delete_ne by done. apply Hc.
  - split; [done |]. intros d. cbn.
    destruct (decide (m = m')) as [-> | Hne].
    + by rewrite lookup_delete_eq.
    + rewrite lookup_delete_ne by done. apply Hc.
Qed.

Lemma closed_run tr : ∀ m st, closed m st → closed m (run' tr st).
Proof.
  induction tr as [| e tr IH]; intros m st Hc; [done |].
  cbn. apply IH. by apply closed_step.
Qed.

Lemma wf_step st e : wf st → wf (step' st e).
Proof.
  intros [Hl Ht]. split.
  - intros k. destruct e as [| ll | ll | m f now | k' ok | k' | m]; cbn [step].
    + apply Hl.
    + unfold onMapClick. destruct (createMarkerMode st); cbn [negb]; [| apply Hl].
      rewrite lookup_create. cbn. destruct (decide _); [lia |]. intros H%Hl. lia.
    + unfold onMapDblClick. rewrite lookup_create. cbn.
      destruct (decide _); [lia |]. intros H%Hl. lia.
    + unfold onCopyClick, copyToClipboard.
      destruct (layers st !! m) as [[ll []]|] eqn:E; try apply Hl.
      destruct hasClipboard; [| apply Hl].
      cbn. destruct (decide (k = m)) as [-> | Hne].
      * intros _. apply Hl. by rewrite E.
      * rewrite lookup_insert_ne by done. apply Hl.
    + unfold clipboardSettled. destruct (writes st !! k'); [destruct ok |]; apply Hl.
    + unfold timerFired. destruct (timers st !! k') as [m'|]; [| apply Hl].
      cbn. destruct (decide (k = m')) as [-> | Hne].
      * rewrite lookup_delete_eq. by intros [? ?].
      * rewrite lookup_delete_ne by done. apply Hl.
    + cbn. destruct (decide (k = m)) as [-> | Hne].
      * rewrite lookup_delete_eq. by intros [? ?].
      * rewrite lookup_delete_ne by done. apply Hl.
  - assert (Forall (λ m, closed m (step' st e)) (timers st)) as Hkeep.
    { eapply Forall_impl; [exact Ht |]. intros m. apply closed_step. }
    destruct e as [| ll | ll | m f now | k' ok | k' | m]; cbn [step] in *; try done.
    + unfold onMapClick in *. by destruct (createMarkerMode st).
    + unfold onCopyClick, copyToClipboard in *.
      destruct (layers st !! m) as [[ll []]|] eqn:E; try done.
      destruct hasClipboard; [| done].
      cbn [timers]. apply Forall_app. split; [done |]. apply Forall_singleton.
      split; [cbn; apply Hl; by rewrite E |].
      intros d. cbn. rewrite lookup_insert_eq. by intros [= <-].
    + unfold clipboardSettled in *. destruct (writes st !! k'); [by destruct ok | done].
    + unfold timerFired in *. destruct (timers st !! k') as [m'|]; [| done].
      cbn [timers]. by apply Forall_delete.
Qed.

Lemma wf_init : wf init.
Proof.
  split; [| constructor]. intros k [d Hd]. cbn in Hd. by rewrite lookup_empty in Hd.
Qed.

Lemma wf_run tr : ∀ st, wf st → wf (run' tr st).
Proof.
  induction tr as [| e tr IH]; intros st H; [done |]. cbn. apply IH. by apply wf_step.
Qed.

(** X12: the removal timer never takes a draft whose form is still
    open.  In every state reached from the start, a timer that fires
    leaves each draft that shows the form on the map: such a draft
    goes only when its popup is closed or after it was copied. *)
Theorem timer_spares_open_forms (tr : list event) (k m : nat) (ll : Q * Q) :
  let s := run' tr init in
  layers s !! m = Some (mkDraft ll CreateForm) →
  layers (timerFired k s) !! m = Some (mkDraft ll CreateForm).
Proof.
  intros s Hm. unfold timerFired.
  destruct (timers s !! k) as [m'|] eqn:Ek; [| done]. cbn.
  destruct (wf_run tr init wf_init) as [_ Ht]. fold s in Ht.
  rewrite Forall_forall in Ht.
  assert (closed m' s) as [_ Hc] by (apply Ht; by eapply list_elem_of_lookup_2).
  destruct (decide (m = m')) as [-> | Hne]; [| by rewrite lookup_delete_ne].
  by specialize (Hc _ Hm).
Qed.

(** X13: a draft is copied at most once.  After the copy button of a
    draft was clicked, whatever happens next (more drafts, clicks,
    clipboard answers, timers), another click on the copy button of
    that draft changes nothing: no second write, no second timer. *)
Theorem copy_only_once
    (tr0 tr : list event) (m : nat) (ll : Q * Q) (f f' : form) (now now' : Z) :
  let st := run' tr0 init in
  layers st !! m = Some (mkDraft ll CreateForm) →
  let s := run' tr (onCopyClick numberToString stringify hasClipboard m f now st) in
  onCopyClick numberToString stringify hasClipboard m f' now' s = s.
Proof.
  intros st Hm s.
  destruct (Bool.bool_dec hasClipboard true) as [Ht | Hf%not_true_is_false].
  - assert (closed m (onCopyClick numberToString stringify hasClipboard m f now st)) as Hc.
    { unfold onCopyClick, copyToClipboard. rewrite Hm, Ht. split.
      - cbn. destruct (wf_run tr0 init wf_init) as [Hl _]. apply Hl.
        fold st. by rewrite Hm.
      - intros d. cbn. rewrite lookup_insert_eq. by intros [= <-]. }
    apply (closed_run tr) in Hc as [_ Hc]. fold s in Hc.
    unfold onCopyClick. destruct (layers s !! m) as [[ll' c]|] eqn:E; [| done].
    specialize (Hc _ eq_refl). cbn in Hc. by subst c.
  - unfold onCopyClick at 1, copyToClipboard. rewrite Hf.
    by destruct (layers s !! m) as [[? []]|].
Qed.

End Steps.

Lemma timer_spares_open_forms_witness :
  let s := run (λ _, "") name true
             [MapDblClick (1, 2)%Q; CopyClick 0 (mkForm "A" "" "" []) 7;
              MapDblClick (3, 4)%Q] init in
  timers s = [0%nat] ∧
  layers (timerFired 0 s) !! 1%nat = Some (mkDraft (3, 4)%Q CreateForm).
Proof.
  split; [reflexivity |].
  apply (timer_spares_open_forms (λ _, "") name true
           [MapDblClick (1, 2)%Q; CopyClick 0 (mkForm "A" "" "" []) 7;
            MapDblClick (3, 4)%Q] 0 1 (3, 4)%Q).
  reflexivity.
Defined.

Lemma copy_only_once_witness :
  let st := run (λ _, "") name true [MapDblClick (1, 2)%Q] init in
  let s := run (λ _, "") name true [ClipboardSettles 0 false; MapDblClick (3, 4)%Q]
             (onCopyClick (λ _, "") name true 0 (mkForm "A" "" "" []) 7 st) in
  onCopyClick (λ _, "") name true 0 (mkForm "B" "" "" []) 8 s = s.
Proof.
  apply (copy_only_once (λ _, "") name true [MapDblClick (1, 2)%Q]
           [ClipboardSettles 0 false; MapDblClick (3, 4)%Q] 0 (1, 2)%Q
           (mkForm "A" "" "" []) (mkForm "B" "" "" []) 7 8).
  reflexivity.
Defined.

End AuthoringMore.

(** ** More about the highlight (map.js 71-88, part_000 71-91) *)

Module HighlightMore.
Import Highlight.

(** The classes of an element apart from the highlight class *)
Definition others (cl : list string) : list string :=
  filter (λ c, c ≠ highlighted) cl.

Lemma others_classRemove cl : others (classRemove highlighted cl) = others cl.
Proof.
  unfold others, classRemove. induction cl as [| c cl IH]; [done |].
  rewrite !filter_cons. destruct (decide (c ≠ highlighted)) as [Hc | Hc]; [| done].
  by rewrite filter_cons, decide_True, IH by done.
Qed.

Lemma others_classAdd cl : others (classAdd highlighted cl) = others cl.
Proof.
  unfold others, classAdd. destruct (decide (highlighted ∈ cl)); [done |].
  rewrite filter_app, filter_cons, decide_False by (intros H; by apply H).
  by rewrite filter_nil, app_nil_r.
Qed.

Lemma others_alter (f : list string → list string) k (ic : gmap nat (list string)) m :
  (∀ cl, others (f cl) = others cl) →
  others <$> alter f k ic !! m = others <$> ic !! m.
Proof.
  intros Hf. destruct (decide (k = m)) as [-> | Hne].
  - rewrite lookup_alter_eq. destruct (ic !! m); cbn; [by rewrite Hf | done].
  - by rewrite lookup_alter_ne.
Qed.

Definition isHighlightEvent (e : event) : bool :=
  match e with
  | Select _ | AnimationEnd _ => true
  | _ => false
  end.

Lemma others_clearPrevious h st m :
  others <$> clearPrevious h st !! m = others <$> icons st !! m.
Proof.
  unfold clearPrevious. destruct (currentHighlightedMarker st) as [prev|]; [| done].
  destruct (decide (prev ≠ h)); [| done].
  apply others_alter, others_classRemove.
Qed.

(** X14: highlighting touches nothing but the highlight class.
    Through any selections and ended animations, in either revision,
    every marker keeps its element, and every element keeps its other
    classes, in their order. *)
Theorem highlight_keeps_other_classes
    (transient : bool) (tr : list event) (st : state) (m : nat) :
  forallb isHighlightEvent tr = true →
  others <$> icons (run transient tr st) !! m = others <$> icons st !! m.
Proof.
  revert st. induction tr as [| e tr IH]; intros st Hall; [done |].
  cbn [forallb] in Hall. apply andb_true_iff in Hall as [He Hall].
  cbn [run fold_left]. fold (run transient tr (step transient st e)).
  rewrite IH by done. destruct e as [h | k | |]; try discriminate; cbn [step].
  - cbn [highlightMarker icons]. rewrite others_alter, others_clearPrevious; [done |].
    intros cl. by rewrite others_classAdd, others_classRemove.
  - unfold animationEnd. destruct (decide _); [| done]. cbn [icons].
    apply others_alter, others_classRemove.
Qed.

Lemma highlight_keeps_other_classes_witness :
  let st := mkState None {[ 1%nat := ["leaflet-marker-icon"; "custom-div-icon"] ]} ∅ in
  others <$> icons (run true [Select 1%nat; Select 2%nat; AnimationEnd 1%nat; Select 1%nat] st)
               !! 1%nat =
  others <$> icons st !! 1%nat.
Proof.
  apply (highlight_keeps_other_classes true
           [Select 1%nat; Select 2%nat; AnimationEnd 1%nat; Select 1%nat]
           (mkState None {[ 1%nat := ["leaflet-marker-icon"; "custom-div-icon"] ]} ∅) 1%nat).
  reflexivity.
Defined.

(** Every highlighted element has its listener pending. *)
Definition listened (st : state) : Prop :=
  ∀ m, emphasised m st → m ∈ listeners st.

Lemma listened_step st e : listened st → listened (step true st e).
Proof.
  intros Hinv m (cl & Hl & Hin). destruct e as [h | k | k | k]; cbn [step] in *.
  - cbn in Hl |- *. destruct (decide (m = h)) as [-> | Hne].
    + rewrite lookup_alter_eq in Hl.
      destruct (clearPrevious h st !! h) as [cl0|] eqn:E; [| done].
      rewrite bool_decide_eq_true_2 by eauto. set_solver.
    + rewrite lookup_alter_ne in Hl by done.
      assert (m ∈ listeners st) as Hm.
      { apply Hinv. unfold clearPrevious in Hl.
        destruct (currentHighlightedMarker st) as [prev|]; [| by exists cl].
        destruct (decide (prev ≠ h)); [| by exists cl].
        by destruct (emphasised_alter_remove m prev (icons st)) as [_ ?]; [eauto |]. }
      destruct (bool_decide _); set_solver.
  - unfold animationEnd in *. destruct (decide (k ∈ listeners st)).
    + cbn in Hl |- *.
      destruct (emphasised_alter_remove m k (icons st)) as [Hne He]; [eauto |].
      apply Hinv in He. set_solver.
    + apply Hinv. by exists cl.
  - cbn in Hl |- *. destruct (decide (m = k)) as [-> | Hne].
    + by rewrite lookup_delete_eq in Hl.
    + rewrite lookup_delete_ne in Hl by done.
      assert (m ∈ listeners st) by (apply Hinv; by exists cl). set_solver.
  - unfold attach in *. destruct (icons st !! k) eqn:E; [apply Hinv; by exists cl |].
    cbn in Hl |- *. destruct (decide (m = k)) as [-> | Hne].
    + rewrite lookup_insert_eq in Hl. simplify_eq.
      apply list_elem_of_In in Hin. cbn in Hin. unfold highlighted in Hin.
      by destruct Hin as [? | [? | []]].
    + rewrite lookup_insert_ne in Hl by done. apply Hinv. by exists cl.
Qed.

Lemma listened_run tr : ∀ st, listened st → listened (run true tr st).
Proof.
  induction tr as [| e tr IH]; intros st H; [done |]. cbn. apply IH.
  by apply listened_step.
Qed.

(** X15: in the older revision no highlight outlives its animation.
    Starting without a highlight, through any selections, ended
    animations and markers leaving or entering the map, an element
    that carries the class always has its [animationend] listener
    pending, and the class is gone once that animation ends. *)
Theorem transient_highlight_ends (tr : list event) (st0 : state) (m : nat) :
  fresh st0 →
  let s := run true tr st0 in
  emphasised m s →
  m ∈ listeners s ∧ ¬ emphasised m (animationEnd m s).
Proof.
  intros [_ Hno] s He.
  assert (listened s) as Hl.
  { apply listened_run. intros k Hk. by destruct (Hno k). }
  split; [by apply Hl |].
  unfold animationEnd. rewrite decide_True by (by apply Hl).
  intros Hem. by destruct (emphasised_alter_remove m m (icons s)) as [Hne _]; [exact Hem |].
Qed.

Lemma transient_highlight_ends_witness :
  let st0 := mkState None {[ 1%nat := ["custom-div-icon"] ]} ∅ in
  let s := run true [Select 1%nat] st0 in
  1%nat ∈ listeners s ∧ ¬ emphasised 1%nat (animationEnd 1%nat s).
Proof.
  apply (transient_highlight_ends [Select 1%nat]
           (mkState None {[ 1%nat := ["custom-div-icon"] ]} ∅) 1%nat).
  - split; [reflexivity |]. intros k (cl & Hl & Hin). cbn in Hl.
    destruct (decide (k = 1%nat)) as [-> | Hne].
    + rewrite lookup_singleton_eq in Hl. simplify_eq.
      apply list_elem_of_In in Hin. cbn in Hin. by destruct Hin as [? | []].
    + by rewrite lookup_singleton_ne in Hl.
  - exists ["custom-div-icon"; "highlighted"]. split; [by vm_compute |].
    apply list_elem_of_In. cbn. auto.
Defined.

End HighlightMore.

(** ** More about the view controller (map.js 212-234) *)

Module FocusMore.
Import Loader Focus.

(** X16: the clamp of the zoom.  Whatever the bounds of the map and
    the request, the zoom given to [setView] never exceeds the maximum
    zoom; it grows with the request; and clamping a clamped zoom
    changes nothing. *)
Theorem zoom_clamp_laws (m : zoomBounds) (zoom : option Q) (z1 z2 : Q) :
  (clampedZoom m zoom <= default 3%Q (getMaxZoom m))%Q ∧
  ((z1 <= z2)%Q → (clampedZoom m (Some z1) <= clampedZoom m (Some z2))%Q) ∧
  (clampedZoom m (Some (clampedZoom m zoom)) == clampedZoom m zoom)%Q.
Proof.
  unfold clampedZoom. cbn [default from_option].
  set (mx := from_option id 3%Q (getMaxZoom m)).
  set (mn := from_option id (-10)%Q (getMinZoom m)).
  set (r := from_option id defaultZoom zoom).
  split_and!.
  - apply Q.le_min_l.
  - intros Hle. apply Q.min_le_compat_l. by apply Q.max_le_compat_r.
  - destruct (Qlt_le_dec mx (Qmax r mn)) as [Hlt | Hge].
    + rewrite (Q.min_l mx (Qmax r mn)) by lra.
      destruct (Qlt_le_dec mx mn) as [Hm | Hm].
      * rewrite (Q.max_r mx mn) by lra. apply Q.min_l. lra.
      * rewrite (Q.max_l mx mn) by lra. apply Q.min_l. lra.
    + rewrite (Q.min_r mx (Qmax r mn)) by lra.
      rewrite (Q.max_l (Qmax r mn) mn) by apply Q.le_max_r.
      apply Q.min_r. lra.
Qed.

(** What the timer callback does to the highlight: [panBy] and
    [showSidePopup] leave it alone. *)
Definition perform (h : Highlight.state) (a : action) : Highlight.state :=
  match a with
  | HighlightMarker mk => Highlight.highlightMarker false (stamp mk) h
  | _ => h
  end.

(** X17: focusing a location moves the highlight to its marker.  When
    at most the selected marker is highlighted before, then after the
    callback of [focusLocation] has run for a location that holds a
    marker, that marker is the selected one, no other marker is
    highlighted, and it is highlighted if it has an element; for a
    location without a marker the highlight stays as it is. *)
Theorem focus_follow_up_highlights (l : location) (h : Highlight.state) (k : nat) :
  Highlight.atMostCurrent h →
  let h' := fold_left perform (followUp l) h in
  match marker l with
  | Some mk =>
      Highlight.currentHighlightedMarker h' = Some (stamp mk) ∧
      (Highlight.emphasised k h' → k = stamp mk) ∧
      (is_Some (Highlight.icons h !! stamp mk) → Highlight.emphasised (stamp mk) h')
  | None => h' = h
  end.
Proof.
  intros Hinv h'. subst h'. unfold followUp.
  destruct (marker l) as [mk|]; [| done]. cbn.
  split_and!; [done | |].
  - intros He.
    apply (Highlight.highlightMarker_atMostCurrent false (stamp mk) h Hinv) in He.
    cbn in He. congruence.
  - apply Highlight.highlightMarker_emphasises.
Qed.

Lemma focus_follow_up_highlights_witness :
  let l := mkLocation "1" "2" "Lab" None None None
             (Some (mkMarker 0 (JS.Num 1, JS.Num 2) "Lab")) in
  let h := Highlight.mkState None {[ 0%nat := ["custom-div-icon"] ]} ∅ in
  let h' := fold_left perform (followUp l) h in
  Highlight.currentHighlightedMarker h' = Some 0%nat ∧
  (Highlight.emphasised 5 h' → 5%nat = 0%nat) ∧
  (is_Some (Highlight.icons h !! 0%nat) → Highlight.emphasised 0 h').
Proof.
  apply (focus_follow_up_highlights
           (mkLocation "1" "2" "Lab" None None None
              (Some (mkMarker 0 (JS.Num 1, JS.Num 2) "Lab")))
           (Highlight.mkState None {[ 0%nat := ["custom-div-icon"] ]} ∅) 5).
  intros m (cl & Hl & Hin). cbn in Hl.
  destruct (decide (m = 0%nat)) as [-> | Hne].
  - rewrite lookup_singleton_eq in Hl. simplify_eq.
    apply list_elem_of_In in Hin. cbn in Hin. by destruct Hin as [? | []].
  - by rewrite lookup_singleton_ne in Hl.
Defined.

End FocusMore.

(** ** The side popup and the accordion over the image cache
    (map.js 156-199, 240-313, 475-488) *)

Module SidePopup.
Import Loader.

(** [if (location.img)]: the url, when the property is there and is
    not the empty string. *)
Definition imageOf (l : location) : option string :=
  match img l with
  | Some u => if JS.truthy u then Some u else None
  | None => None
  end.

(** The image area of one rendering of the popup content (lines
    264-267): the skeleton text and the [img] element. *)
Record view := mkView {
  v_location : location;          (* the location the markup was built from *)
  loadingText : option string;    (* text of #side-img-loading, [None] once removed *)
  imgSrc : option string;         (* [imgEl.src], once assigned *)
  imgDisplayed : bool             (* [imgEl.style.display] is block *)
}.

(** A [then]/[catch] pair of [showSidePopup] waiting on a promise *)
Record handler := mkHandler {
  h_promise : nat;
  h_view : nat;                   (* the rendering whose elements the closures hold *)
  h_url : string                  (* what the promise resolves with *)
}.

(** A panel of the accordion with the [categoryImageUrls] its listener
    closes over. *)
Record panel := mkPanel {
  p_urls : list string;
  active : bool;                  (* the button's class [active] *)
  displayed : bool                (* [p.style.display] is block *)
}.

Record state := mkState {
  cache : ImageCache.state;
  views : list view;              (* every rendering, oldest first; the last is in the document *)
  popupShown : bool;              (* #side-popup is displayed *)
  handlers : list handler;
  modalShown : bool;              (* #image-modal is displayed *)
  modalSrc : option string;       (* [modalImg.src] *)
  panels : list panel
}.

Definition init : state := mkState ImageCache.init [] false [] false None [].

(** The markup of line 261: the skeleton, image hidden. *)
Definition skeleton (l : location) : view :=
  mkView l (Some "Loading image…") None false.

(** The [then] callback (lines 281-285) *)
Definition onFulfilled (url : string) (v : view) : view :=
  mkView (v_location v) None (Some url) true.

(** The [catch] callback (lines 286-288) *)
Definition onRejected (v : view) : view :=
  mkView (v_location v) ((λ _, "Failed to load image.") <$> loadingText v)
         (imgSrc v) (imgDisplayed v).

(** The else branch (line 290) *)
Definition noImage (v : view) : view :=
  mkView (v_location v) ((λ _, "No image available.") <$> loadingText v)
         (imgSrc v) (imgDisplayed v).

(** What a settled promise does to a rendering through the callbacks. *)
Definition fire (ps : ImageCache.pstate) (url : string) (v : view) : view :=
  match ps with
  | ImageCache.Resolved => onFulfilled url v
  | ImageCache.Rejected => onRejected v
  | ImageCache.Pending => v
  end.

(** [showSidePopup(location)]: new content, the popup displayed, and
    the image asked from [loadImage]; callbacks on a promise that has
    settled run before anything else happens. *)
Definition showSidePopup (l : location) (st : state) : state :=
  match imageOf l with
  | Some url =>
      let '(p, c) := ImageCache.loadImage url (cache st) in
      match ImageCache.promises c !! p with
      | Some ImageCache.Resolved =>
          mkState c (views st ++ [fire ImageCache.Resolved url (skeleton l)]) true
                  (handlers st) (modalShown st) (modalSrc st) (panels st)
      | Some ImageCache.Rejected =>
          mkState c (views st ++ [fire ImageCache.Rejected url (skeleton l)]) true
                  (handlers st) (modalShown st) (modalSrc st) (panels st)
      | _ =>
          mkState c (views st ++ [skeleton l]) true
                  (handlers st ++ [mkHandler p (length (views st)) url])
                  (modalShown st) (modalSrc st) (panels st)
      end
  | None =>
      mkState (cache st) (views st ++ [noImage (skeleton l)]) true
              (handlers st) (modalShown st) (modalSrc st) (panels st)
  end.

(** [openModal(imageSrc)] *)
Definition openModal (imageSrc : string) (st : state) : state :=
  mkState (cache st) (views st) (popupShown st) (handlers st) true (Some imageSrc)
          (panels st).

Section Page.

(** How the page resolves the url of an image against its own
    address: the browser's doing, left open. *)
Variable resolveUrl : string → string.

(** [imgEl.src] as the DOM returns it: the url that was assigned,
    resolved; the empty string while none was assigned. *)
Definition srcOf (v : view) : string :=
  match imgSrc v with
  | Some url => resolveUrl url
  | None => ""
  end.

(** A click on the image of the popup (lines 293-295) *)
Definition onImgClick (st : state) : state :=
  match last (views st) with
  | Some v => if JS.truthy (srcOf v) then openModal (srcOf v) st else st
  | None => st
  end.

(** The close button of the popup (lines 476-480) *)
Definition onPopupClose (st : state) : state :=
  mkState (cache st) (views st) false (handlers st) (modalShown st) (modalSrc st)
          (panels st).

(** The close button of the modal, or a click on its backdrop (lines
    307-312, 483-488) *)
Definition onModalClose (st : state) : state :=
  mkState (cache st) (views st) (popupShown st) (handlers st) false (modalSrc st)
          (panels st).

(** The callbacks [hs] run, in the order they were registered. *)
Definition fireAll (ps : ImageCache.pstate) (hs : list handler) (vs : list view) : list view :=
  fold_left (λ vs h, alter (fire ps (h_url h)) (h_view h) vs) hs vs.

(** The promise [p] settles: the warm loops resume, and the callbacks
    of [showSidePopup] registered on it run. *)
Definition imageSettles (p : nat) (ok : bool) (st : state) : state :=
  match ImageCache.promises (cache st) !! p with
  | Some ImageCache.Pending =>
      let ps := if ok then ImageCache.Resolved else ImageCache.Rejected in
      mkState (ImageCache.settle p ok (cache st))
              (fireAll ps (filter (λ h, h_promise h = p) (handlers st)) (views st))
              (popupShown st)
              (filter (λ h, h_promise h ≠ p) (handlers st))
              (modalShown st) (modalSrc st) (panels st)
  | _ => st
  end.

(** [categoryImageUrls] once the [forEach] of lines 162-186 is through *)
Definition categoryImageUrls (locs : list location) : list string :=
  omap imageOf locs.

(** The panel of a category as [loadCategories] builds it *)
Definition addPanel (locs : list location) (st : state) : state :=
  mkState (cache st) (views st) (popupShown st) (handlers st) (modalShown st)
          (modalSrc st) (panels st ++ [mkPanel (categoryImageUrls locs) false false]).

(** A click on the [k]-th accordion button (lines 189-199) *)
Definition onAccordionClick (k : nat) (st : state) : state :=
  match panels st !! k with
  | Some pn =>
      let willOpen := negb (displayed pn) in
      let ps := <[k := mkPanel (p_urls pn) (negb (active pn)) willOpen]> (panels st) in
      let c := if willOpen && negb (bool_decide (p_urls pn = []))
               then ImageCache.warmCache (p_urls pn) (Some 6) (cache st)
               else cache st in
      mkState c (views st) (popupShown st) (handlers st) (modalShown st) (modalSrc st) ps
  | None => st
  end.

Inductive event :=
| Show (l : location)              (* a marker click, or the timer of focusLocation *)
| ImgClick
| PopupClose
| ModalClose
| AddPanel (locs : list location)
| AccordionClick (k : nat)
| Idle (k : nat)                   (* the idle callback runs a warm-up *)
| ImageSettles (p : nat) (ok : bool).

Definition step (st : state) (e : event) : state :=
  match e with
  | Show l => showSidePopup l st
  | ImgClick => onImgClick st
  | PopupClose => onPopupClose st
  | ModalClose => onModalClose st
  | AddPanel locs => addPanel locs st
  | AccordionClick k => onAccordionClick k st
  | Idle k =>
      mkState (ImageCache.idle k (cache st)) (views st) (popupShown st) (handlers st)
              (modalShown st) (modalSrc st) (panels st)
  | ImageSettles p ok => imageSettles p ok st
  end.

Definition run (tr : list event) (st : state) : state := fold_left step tr st.

(** What the image area of a rendering of [l] should be, read off the
    memo: [None] when the memo knows nothing of the image. *)
Definition imageArea (l : location) (st : state) : option view :=
  match imageOf l with
  | None => Some (noImage (skeleton l))
  | Some url =>
      p ← ImageCache.imageLoadCache (cache st) !! url;
      ps ← ImageCache.promises (cache st) !! p;
      Some (fire ps url (skeleton l))
  end.

(** The event loop settling, one after the other, whatever promise
    the first waiting warm loop waits for. *)
Fixpoint drain (oks : list bool) (st : state) : state :=
  match oks with
  | [] => st
  | ok :: rest =>
      match ImageCache.parked (cache st) with
      | wt :: _ => drain rest (imageSettles (ImageCache.w_promise wt) ok st)
      | [] => st
      end
  end.


(** *** The promise table under the events of the cache *)

Definition grows (c c' : ImageCache.state) : Prop :=
  ∀ q ps, ImageCache.promises c !! q = Some ps → ImageCache.promises c' !! q = Some ps.

Lemma promises_kept_refl c : grows c c.
Proof. by intros q ps. Qed.

Lemma promises_kept_trans a b c : grows a b → grows b c → grows a c.
Proof. intros H1 H2 q ps H. by apply H2, H1. Qed.

Lemma loadImage_grows u c : grows c (ImageCache.loadImage u c).2.
Proof.
  unfold ImageCache.loadImage. destruct (_ !! u); [apply promises_kept_refl |].
  intros q ps H. cbn. by apply lookup_app_l_Some.
Qed.

Lemma advance_grows urls : ∀ c, grows c (ImageCache.advance urls c).
Proof.
  induction urls as [| u rest IH]; intros c; cbn [ImageCache.advance]; [apply promises_kept_refl |].
  pose proof (loadImage_grows u c) as Hl.
  destruct (ImageCache.loadImage u c) as [p c1]. cbn [snd] in Hl.
  eapply promises_kept_trans; [exact Hl |].
  destruct (ImageCache.promises c1 !! p) as [ps|]; [| by intros q ps].
  destruct (ImageCache.awaited u ps) as [o|]; [| by intros q ps0].
  unfold ImageCache.afterAwait. destruct o; cbn; apply IH.
Qed.

Lemma fold_grows {A} (f : ImageCache.state → A → ImageCache.state) l :
  (∀ s a, grows s (f s a)) → ∀ c, grows c (fold_left f l c).
Proof.
  intros Hf. induction l as [| a l IH]; intros c; cbn; [apply promises_kept_refl |].
  eapply promises_kept_trans; [apply Hf | apply IH].
Qed.

Lemma idle_grows k c : grows c (ImageCache.idle k c).
Proof.
  unfold ImageCache.idle. destruct (_ !! k); [| apply promises_kept_refl].
  eapply promises_kept_trans; [| apply advance_grows]. by intros q ps.
Qed.

Lemma warmCache_grows urls limit c : grows c (ImageCache.warmCache urls limit c).
Proof.
  unfold ImageCache.warmCache. destruct (ImageCache.toWarm _ _ _); by intros q ps.
Qed.

Lemma settle_promises p ok c :
  ImageCache.promises c !! p = Some ImageCache.Pending →
  ImageCache.promises (ImageCache.settle p ok c) !! p
    = Some (if ok then ImageCache.Resolved else ImageCache.Rejected) ∧
  ∀ q ps, q ≠ p → ImageCache.promises c !! q = Some ps →
          ImageCache.promises (ImageCache.settle p ok c) !! q = Some ps.
Proof.
  intros Hp. unfold ImageCache.settle. rewrite Hp.
  set (c1 := ImageCache.mkState _ _ _ _ _ _).
  set (f := λ s w, _).
  assert (grows c1 (fold_left f (filter (λ w, ImageCache.w_promise w = p) (ImageCache.parked c)) c1))
    as Hg.
  { apply fold_grows. intros s w. unfold f.
    destruct (ImageCache.awaited _ _) as [o|]; [| by intros q ps].
    unfold ImageCache.afterAwait. destruct o; cbn; apply advance_grows. }
  split.
  - apply Hg. cbn. apply list_lookup_insert_eq. by eapply lookup_lt_Some.
  - intros q ps Hne Hq. apply Hg. cbn. by rewrite list_lookup_insert_ne.
Qed.

Lemma settle_not_pending p ok c :
  ImageCache.promises c !! p ≠ Some ImageCache.Pending → ImageCache.settle p ok c = c.
Proof.
  intros H. unfold ImageCache.settle.
  by destruct (ImageCache.promises c !! p) as [[| |]|].
Qed.

(** *** The callbacks on the renderings *)

Lemma fire_location ps url v : v_location (fire ps url v) = v_location v.
Proof. by destruct ps. Qed.

Lemma fire_twice ps url l :
  fire ps url (fire ps url (skeleton l)) = fire ps url (skeleton l).
Proof. by destruct ps. Qed.

Lemma fireAll_location ps hs : ∀ vs k,
  v_location <$> fireAll ps hs vs !! k = v_location <$> vs !! k.
Proof.
  induction hs as [| h hs IH]; intros vs k; [done |].
  cbn [fireAll fold_left]. fold (fireAll ps hs (alter (fire ps (h_url h)) (h_view h) vs)).
  rewrite IH. rewrite list_lookup_alter. destruct (decide (h_view h = k)) as [-> | ?]; [| done].
  destruct (vs !! k); cbn; [by rewrite fire_location | done].
Qed.

Lemma fireAll_untouched ps hs k : ∀ vs,
  (∀ h, h ∈ hs → h_view h ≠ k) → fireAll ps hs vs !! k = vs !! k.
Proof.
  induction hs as [| h hs IH]; intros vs Hno; [done |].
  cbn [fireAll fold_left]. fold (fireAll ps hs (alter (fire ps (h_url h)) (h_view h) vs)).
  rewrite IH by (intros h' Hh'; apply Hno; by right).
  apply list_lookup_alter_ne. apply Hno. by left.
Qed.

Lemma fireAll_final ps hs k url l : ∀ vs,
  (∀ h, h ∈ hs → h_view h = k → h_url h = url) →
  vs !! k = Some (fire ps url (skeleton l)) →
  fireAll ps hs vs !! k = Some (fire ps url (skeleton l)).
Proof.
  induction hs as [| h hs IH]; intros vs Hurl Hk; [done |].
  cbn [fireAll fold_left]. fold (fireAll ps hs (alter (fire ps (h_url h)) (h_view h) vs)).
  apply IH; [intros h' Hh'; apply Hurl; by right |].
  rewrite list_lookup_alter. destruct (decide (h_view h = k)) as [He | ?]; [| done].
  rewrite He, Hk. cbn. rewrite (Hurl h) by (done || by left). by rewrite fire_twice.
Qed.

Lemma fireAll_fired ps hs k url l : ∀ vs,
  (∀ h, h ∈ hs → h_view h = k → h_url h = url) →
  (∃ h, h ∈ hs ∧ h_view h = k) →
  vs !! k = Some (skeleton l) →
  fireAll ps hs vs !! k = Some (fire ps url (skeleton l)).
Proof.
  induction hs as [| h hs IH]; intros vs Hurl (h0 & Hin & Hv0) Hk.
  { by apply elem_of_nil in Hin. }
  cbn [fireAll fold_left]. fold (fireAll ps hs (alter (fire ps (h_url h)) (h_view h) vs)).
  assert (∀ h', h' ∈ hs → h_view h' = k → h_url h' = url) as Hurl'.
  { intros h' Hh'. apply Hurl. by right. }
  destruct (decide (h_view h = k)) as [He | Hne].
  - apply fireAll_final; [done |].
    rewrite He, list_lookup_alter_eq, Hk. cbn. by rewrite (Hurl h) by (done || by left).
  - apply IH; [done | | by rewrite list_lookup_alter_ne].
    apply elem_of_cons in Hin as [-> | Hin]; [done | eauto].
Qed.

(** *** What every state of a session satisfies *)

(** Every waiting callback belongs to a rendering of a pictured
    location, and waits on the promise the memo holds for its url. *)
Definition tracked (st : state) : Prop :=
  ∀ h, h ∈ handlers st →
    ∃ v, views st !! h_view h = Some v ∧
         imageOf (v_location v) = Some (h_url h) ∧
         ImageCache.imageLoadCache (cache st) !! h_url h = Some (h_promise h).

(** Every rendering shows what the promise of its image says, and has
    its callback waiting while the promise is pending. *)
Definition rendered (st : state) : Prop :=
  ∀ k v, views st !! k = Some v →
    match imageOf (v_location v) with
    | None => v = noImage (skeleton (v_location v))
    | Some url =>
        ∃ p ps, ImageCache.imageLoadCache (cache st) !! url = Some p ∧
                ImageCache.promises (cache st) !! p = Some ps ∧
                v = fire ps url (skeleton (v_location v)) ∧
                (ps = ImageCache.Pending → mkHandler p k url ∈ handlers st)
    end.

(** The modal holds an image that has loaded: its source is the
    resolved url of a memo entry whose promise has resolved. *)
Definition loaded (st : state) (src : string) : Prop :=
  ∃ url p, src = resolveUrl url ∧
           ImageCache.imageLoadCache (cache st) !! url = Some p ∧
           ImageCache.promises (cache st) !! p = Some ImageCache.Resolved.

Definition enlarged (st : state) : Prop :=
  ∀ src, modalSrc st = Some src → loaded st src.

Definition inv (st : state) : Prop :=
  ImageCacheMore.coherent (cache st) ∧ tracked st ∧ rendered st ∧ enlarged st.

Lemma inv_start : inv init.
Proof.
  split_and!.
  - apply ImageCacheMore.coherent_init.
  - by intros h ?%elem_of_nil.
  - by intros k v.
  - by intros src.
Qed.

(** An event that leaves renderings, callbacks and the modal alone,
    and moves the cache forward. *)
Lemma inv_cache st st' :
  inv st →
  views st' = views st → handlers st' = handlers st → modalSrc st' = modalSrc st →
  ImageCacheMore.coherent (cache st') →
  ImageCache.extends (cache st) (cache st') →
  grows (cache st) (cache st') →
  inv st'.
Proof.
  intros (Hc & Ht & Hr & Hm) Hv Hh Hms Hc' (Hext & _) Hg. split_and!; [done | | |].
  - intros h Hin. rewrite Hh in Hin. destruct (Ht h Hin) as (v & ? & ? & ?).
    exists v. rewrite Hv. split_and!; [done | done | by apply Hext].
  - intros k v Hk. rewrite Hv in Hk. specialize (Hr k v Hk).
    destruct (imageOf (v_location v)) as [url|]; [| done].
    destruct Hr as (p & ps & ? & ? & ? & ?). exists p, ps. rewrite Hh.
    split_and!; [by apply Hext | by apply Hg | done | done].
  - intros src Hsrc. rewrite Hms in Hsrc. destruct (Hm src Hsrc) as (url & p & ? & ? & ?).
    exists url, p. split_and!; [done | by apply Hext | by apply Hg].
Qed.

Lemma coherent_step c e :
  ImageCacheMore.coherent c → ImageCacheMore.coherent (ImageCache.step c e).
Proof. apply ImageCacheMore.coherent_reach, ImageCacheMore.reach_step. Qed.

Lemma loadImage_entry u c :
  ImageCacheMore.coherent c →
  ImageCache.imageLoadCache (ImageCache.loadImage u c).2 !! u
    = Some (ImageCache.loadImage u c).1 ∧
  is_Some (ImageCache.promises (ImageCache.loadImage u c).2 !! (ImageCache.loadImage u c).1).
Proof.
  intros Hc.
  pose proof (ImageCacheMore.coherent_loadImage u c Hc) as (Hv & _ & _).
  assert (ImageCache.imageLoadCache (ImageCache.loadImage u c).2 !! u
          = Some (ImageCache.loadImage u c).1) as He.
  { unfold ImageCache.loadImage.
    destruct (ImageCache.imageLoadCache c !! u) eqn:E; cbn [fst snd]; [exact E |].
    apply lookup_insert_eq. }
  split; [done |]. apply lookup_lt_is_Some. by eapply Hv.
Qed.

Lemma inv_show l st : inv st → inv (showSidePopup l st).
Proof.
  intros (Hc & Ht & Hr & Hm). unfold showSidePopup.
  destruct (imageOf l) as [url|] eqn:Hl.
  - pose proof (ImageCacheMore.coherent_loadImage url (cache st) Hc) as Hc1.
    pose proof (ImageCache.loadImage_extends url (cache st)) as (Hext & _).
    pose proof (loadImage_grows url (cache st)) as Hg.
    destruct (loadImage_entry url (cache st) Hc) as (Hent & [ps Hps]).
    destruct (ImageCache.loadImage url (cache st)) as [p c]. cbn [fst snd] in *.
    rewrite Hps.
    assert (∀ hs' vnew,
      (∀ h, h ∈ handlers st → h ∈ hs') →
      vnew = fire ps url (skeleton l) →
      (ps = ImageCache.Pending → mkHandler p (length (views st)) url ∈ hs') →
      (∀ h, h ∈ hs' → h ∈ handlers st ∨ h = mkHandler p (length (views st)) url) →
      inv (mkState c (views st ++ [vnew]) true hs' (modalShown st) (modalSrc st) (panels st)))
      as Hgen.
    { intros hs' vnew Hsub -> Hpend Hhs. split_and!; cbn [cache views handlers modalSrc].
      - done.
      - intros h Hin. destruct (Hhs h Hin) as [Hold | ->].
        + destruct (Ht h Hold) as (v & ? & ? & ?). exists v.
          split_and!; [by apply lookup_app_l_Some | done | by apply Hext].
        + cbn. exists (fire ps url (skeleton l)).
          split_and!; [by rewrite lookup_app_r, Nat.sub_diag by lia | | done].
          by rewrite fire_location.
      - intros k v Hk. apply lookup_app_Some in Hk as [Hk | [Hge Hk]].
        + specialize (Hr k v Hk). destruct (imageOf (v_location v)) as [u|]; [| done].
          destruct Hr as (q & qs & ? & ? & ? & ?). exists q, qs.
          split_and!; [by apply Hext | by apply Hg | done | by auto].
        + apply list_lookup_singleton_Some in Hk as [Hk <-].
          rewrite fire_location. cbn [skeleton v_location]. rewrite Hl.
          exists p, ps. split_and!; [done | done | done |].
          intros Hp. replace k with (length (views st)) by lia. by apply Hpend.
      - intros src Hsrc. destruct (Hm src Hsrc) as (u & q & ? & ? & ?).
        exists u, q. split_and!; [done | by apply Hext | by apply Hg]. }
    destruct ps.
    + apply Hgen; [| done | |].
      * intros h ?. apply elem_of_app. by left.
      * intros _. apply elem_of_app. right. by apply list_elem_of_singleton.
      * intros h [? | ?%list_elem_of_singleton]%elem_of_app; auto.
    + apply Hgen; [done | done | done | by left].
    + apply Hgen; [done | done | done | by left].
  - split_and!; cbn [cache views handlers modalSrc]; [done | | | done].
    + intros h Hin. destruct (Ht h Hin) as (v & ? & ? & ?). exists v.
      split_and!; [by apply lookup_app_l_Some | done | done].
    + intros k v Hk. apply lookup_app_Some in Hk as [Hk | [Hge Hk]]; [by apply Hr |].
      apply list_lookup_singleton_Some in Hk as [Hk <-].
      cbn [noImage skeleton v_location]. by rewrite Hl.
Qed.

Lemma inv_settle p ok st : inv st → inv (imageSettles p ok st).
Proof.
  intros (Hc & Ht & Hr & Hm). unfold imageSettles.
  destruct (ImageCache.promises (cache st) !! p) as [ps0|] eqn:Hp; [| done].
  destruct ps0; [| done | done].
  set (ps := if ok then ImageCache.Resolved else ImageCache.Rejected).
  set (woken := filter (λ h, h_promise h = p) (handlers st)).
  pose proof (ImageCache.settle_extends p ok (cache st)) as (Hext & _).
  destruct (settle_promises p ok (cache st) Hp) as (Hnew & Hold). fold ps in Hnew.
  assert (∀ h, h ∈ woken → ∀ k v url q,
            h_view h = k → views st !! k = Some v →
            imageOf (v_location v) = Some url →
            ImageCache.imageLoadCache (cache st) !! url = Some q →
            h_url h = url ∧ q = p) as Hwoken.
  { intros h [Hhp Hin]%list_elem_of_filter k v url q Hk Hv Hu Hq.
    destruct (Ht h Hin) as (v0 & Hv0 & Hu0 & Hq0). rewrite Hk in Hv0.
    simplify_eq. split; [done |]. congruence. }
  assert (∀ k v', fireAll ps woken (views st) !! k = Some v' →
            ∃ v, views st !! k = Some v ∧ v_location v = v_location v') as Hback.
  { intros k v' Hk. pose proof (fireAll_location ps woken (views st) k) as Hloc.
    rewrite Hk in Hloc. cbn in Hloc. destruct (views st !! k) as [v|]; [| done].
    exists v. split; [done |]. cbn in Hloc. congruence. }
  unfold inv, tracked, rendered, enlarged. cbn [cache views handlers modalSrc].
  split_and!.
  - apply (coherent_step (cache st) (ImageCache.EvImageSettles p ok) Hc).
  - intros h [Hhp Hin]%list_elem_of_filter.
    destruct (Ht h Hin) as (v & Hv & Hu & Hq).
    pose proof (fireAll_location ps woken (views st) (h_view h)) as Hloc.
    rewrite Hv in Hloc. cbn in Hloc.
    destruct (fireAll ps woken (views st) !! h_view h) as [v'|]; [| done].
    cbn in Hloc. exists v'. split_and!; [done | | by apply Hext]. congruence.
  - intros k v' Hk. destruct (Hback k v' Hk) as (v & Hv & Hloc).
    specialize (Hr k v Hv). rewrite Hloc in Hr.
    destruct (imageOf (v_location v')) as [url|] eqn:Hu.
    + destruct Hr as (q & qs & Hq & Hqs & Hveq & Hpend).
      destruct (decide (q = p)) as [-> | Hne].
      * assert (qs = ImageCache.Pending) as -> by congruence.
        exists p, ps. split_and!; [by apply Hext | done | | by destruct ok].
        assert (fireAll ps woken (views st) !! k = Some (fire ps url (skeleton (v_location v'))))
          as Hf; [| congruence].
        apply fireAll_fired.
        -- intros h Hin Hhk.
           assert (imageOf (v_location v) = Some url) as Hu' by congruence.
           by destruct (Hwoken h Hin k v url p Hhk Hv Hu' Hq) as [? _].
        -- exists (mkHandler p k url). split; [| done].
           apply list_elem_of_filter. split; [done | by apply Hpend].
        -- by rewrite Hv, Hveq.
      * exists q, qs.
        assert (fireAll ps woken (views st) !! k = views st !! k) as Hsame.
        { apply fireAll_untouched. intros h Hin Hhk.
          assert (imageOf (v_location v) = Some url) as Hu' by congruence.
          by destruct (Hwoken h Hin k v url q Hhk Hv Hu' Hq) as [_ ?]. }
        split_and!; [by apply Hext | by apply Hold | congruence |].
        intros Hpq. apply list_elem_of_filter. split; [done | by apply Hpend].
    + assert (fireAll ps woken (views st) !! k = views st !! k) as Hsame; [| congruence].
      apply fireAll_untouched. intros h [Hhp Hin]%list_elem_of_filter Hhk.
      destruct (Ht h Hin) as (v0 & Hv0 & Hu0 & _). rewrite Hhk in Hv0. congruence.
  - intros src Hsrc. destruct (Hm src Hsrc) as (u & q & Hu & Hq & Hqs).
    exists u, q. split_and!; [done | by apply Hext |]. apply Hold; [congruence | done].
Qed.

Lemma inv_step st e : inv st → inv (step st e).
Proof.
  intros Hinv. destruct e as [l | | | | locs | k | k | p ok]; cbn [step].
  - by apply inv_show.
  - unfold onImgClick. destruct (last (views st)) as [v|] eqn:Hlast; [| done].
    destruct (JS.truthy (srcOf v)) eqn:Htr; [| done].
    destruct Hinv as (Hc & Ht & Hr & Hm). split_and!; [done | done | done |].
    intros src' [= <-].
    apply last_Some in Hlast as [vs' Hvs].
    assert (views st !! length vs' = Some v) as Hk.
    { rewrite Hvs. by rewrite lookup_app_r, Nat.sub_diag by lia. }
    specialize (Hr _ _ Hk). unfold srcOf in *.
    destruct (imageOf (v_location v)) as [url|].
    + destruct Hr as (p & ps & Hp & Hps & Hv & _). rewrite Hv in Htr |- *.
      destruct ps; cbn in Htr |- *; [done | | done]. by exists url, p.
    + rewrite Hr in Htr. done.
  - by apply (inv_cache st); [| | | | destruct Hinv as [? _] | apply ImageCache.extends_refl
                                    | apply promises_kept_refl].
  - by apply (inv_cache st); [| | | | destruct Hinv as [? _] | apply ImageCache.extends_refl
                                    | apply promises_kept_refl].
  - by apply (inv_cache st); [| | | | destruct Hinv as [? _] | apply ImageCache.extends_refl
                                    | apply promises_kept_refl].
  - unfold onAccordionClick. destruct (panels st !! k) as [pn|]; [| done].
    destruct Hinv as (Hc & Hrest).
    destruct (negb (displayed pn) && negb (bool_decide (p_urls pn = []))).
    + apply (inv_cache st); cbn; [done | done | done | done | | |].
      * apply (coherent_step (cache st) (ImageCache.EvWarmCache (p_urls pn) (Some 6)) Hc).
      * apply ImageCache.warmCache_extends.
      * apply warmCache_grows.
    + apply (inv_cache st); cbn;
        [done | done | done | done | done | apply ImageCache.extends_refl | apply promises_kept_refl].
  - destruct Hinv as (Hc & Hrest).
    apply (inv_cache st); cbn; [done | done | done | done | | |].
    + apply (coherent_step (cache st) (ImageCache.EvIdle k) Hc).
    + apply ImageCache.idle_extends.
    + apply idle_grows.
  - by apply inv_settle.
Qed.

Lemma inv_run tr : ∀ st, inv st → inv (run tr st).
Proof.
  induction tr as [| e tr IH]; intros st H; [done |]. cbn. apply IH. by apply inv_step.
Qed.

(** X18: the image area of the popup follows the memo.  In every
    state of a session, each rendering of the popup, the one in the
    document included, shows: no image for a location without one;
    the skeleton while the promise of its image is pending; the image
    once the promise has resolved; the failure notice once it has
    rejected. *)
Theorem popup_image_follows_memo (tr : list event) (k : nat) (v : view) :
  views (run tr init) !! k = Some v →
  imageArea (v_location v) (run tr init) = Some v.
Proof.
  intros Hk. destruct (inv_run tr init inv_start) as (_ & _ & Hr & _).
  specialize (Hr k v Hk). unfold imageArea.
  destruct (imageOf (v_location v)) as [url|]; [| by rewrite Hr at 2].
  destruct Hr as (p & ps & -> & Hps & Hv & _). cbn. rewrite Hps. cbn. by rewrite Hv at 2.
Qed.

(** X19: the modal only enlarges an image that has loaded.  In every
    state of a session the source of the modal image, once set, is
    the address, as the page resolves it, of a url whose promise in
    the memo has resolved. *)
Theorem modal_shows_loaded_image (tr : list event) :
  let s := run tr init in
  from_option
    (λ src, ∃ url p, src = resolveUrl url ∧
                     ImageCache.imageLoadCache (cache s) !! url = Some p ∧
                     ImageCache.promises (cache s) !! p = Some ImageCache.Resolved)
    True (modalSrc s).
Proof.
  intros s. destruct (inv_run tr init inv_start) as (_ & _ & _ & Hm).
  fold s in Hm. destruct (modalSrc s) as [src|] eqn:E; [| done]. cbn. by apply Hm.
Qed.

End Page.

(** A page at [https://map.example/] and a relative image path *)
Definition onExample (url : string) : string := "https://map.example/" +:+ url.

Example modal_of_relative_image :
  let l := mkLocation "1" "2" "Lab" None (Some "lab.png") None None in
  let s := run onExample [Show l; ImageSettles 0 true; ImgClick] init in
  modalShown s = true ∧ modalSrc s = Some "https://map.example/lab.png".
Proof. by vm_compute. Qed.

Lemma popup_image_follows_memo_witness :
  let l := mkLocation "1" "2" "Lab" None (Some "lab.png") None None in
  imageArea l (run onExample [Show l; ImageSettles 0 false; Show l] init)
    = Some (mkView l (Some "Failed to load image.") None false).
Proof.
  intros l.
  apply (popup_image_follows_memo onExample [Show l; ImageSettles 0 false; Show l] 1
           (mkView l (Some "Failed to load image.") None false)).
  reflexivity.
Defined.

(** *** Opening a category warms its first images *)

Lemma imageSettles_cache p ok st :
  cache (imageSettles p ok st) = ImageCache.settle p ok (cache st).
Proof.
  unfold imageSettles.
  destruct (ImageCache.promises (cache st) !! p) as [ps|] eqn:E.
  - destruct ps; [done | |]; symmetry; apply settle_not_pending; by rewrite E.
  - symmetry. apply settle_not_pending. by rewrite E.
Qed.

Lemma drain_cache oks : ∀ st, cache (drain oks st) = ImageCacheMore.drain oks (cache st).
Proof.
  induction oks as [| ok oks IH]; intros st; [done |]. cbn [drain ImageCacheMore.drain].
  destruct (ImageCache.parked (cache st)) as [| wt ?]; [done |].
  by rewrite IH, imageSettles_cache.
Qed.

(** X20: opening a category gets its first six images ready.  When no
    warm-up is under way, a click that opens a panel, the idle callback
    and then the settling of the loads the warm-up waits for (six
    results are enough, failures included) leave no warm loop waiting;
    each of the first six image urls of the category is in the memo;
    and showing the popup of a location with such an image starts no
    load. *)
Theorem opened_category_is_warm (resolveUrl : string → string)
    (st : state) (k : nat) (pn : panel) (oks : list bool) (l : location) (u : string) :
  ImageCacheMore.valid (cache st) →
  ImageCache.scheduled (cache st) = [] → ImageCache.parked (cache st) = [] →
  panels st !! k = Some pn → displayed pn = false →
  (6 ≤ length oks)%nat →
  imageOf l = Some u → u ∈ take 6 (p_urls pn) →
  let s := drain oks (step resolveUrl (step resolveUrl st (AccordionClick k)) (Idle 0)) in
  ImageCache.parked (cache s) = [] ∧
  ImageCacheMore.cached (cache s) u ∧
  ImageCache.started (cache (showSidePopup l s)) = ImageCache.started (cache s).
Proof.
  intros Hv Hs Hp Hk Hclosed Hlen Hl Hu s.
  assert (cache s = ImageCacheMore.drain oks
                      (ImageCache.idle 0 (ImageCache.warmCache (p_urls pn) (Some 6) (cache st))))
    as Hcache.
  { subst s. rewrite drain_cache. cbn [step cache]. unfold onAccordionClick.
    rewrite Hk, Hclosed. cbn [negb andb].
    rewrite bool_decide_eq_false_2; [done |].
    intros Hnil. rewrite Hnil in Hu. by apply elem_of_nil in Hu. }
  destruct (ImageCacheMore.warm_reaches_slice (p_urls pn) (Some 6) (cache st) oks Hv Hs Hp)
    as [Hpk Hall].
  { etransitivity; [| exact Hlen]. unfold ImageCache.toWarm.
    etransitivity; [apply length_filter |]. unfold JS.slice0. cbn.
    rewrite length_take. lia. }
  rewrite <- Hcache in Hpk, Hall.
  assert (ImageCacheMore.cached (cache s) u) as Hcu by (by apply Hall).
  split_and!; [done | done |].
  destruct Hcu as [p Hp']. unfold showSidePopup. rewrite Hl.
  rewrite (ImageCache.loadImage_hit u (cache s) p Hp').
  by destruct (ImageCache.promises (cache s) !! p) as [[| |]|].
Qed.

Lemma opened_category_is_warm_witness :
  let l := mkLocation "1" "2" "Lab" None (Some "lab.png") None None in
  let m := mkLocation "3" "4" "Dock" None (Some "dock.png") None None in
  let st := step onExample init (AddPanel [l; m]) in
  let s := drain [true; false; true; true; true; true]
             (step onExample (step onExample st (AccordionClick 0)) (Idle 0)) in
  ImageCache.parked (cache s) = [] ∧
  ImageCacheMore.cached (cache s) "dock.png" ∧
  ImageCache.started (cache (showSidePopup m s)) = ImageCache.started (cache s).
Proof.
  intros l m st.
  apply (opened_category_is_warm onExample st 0 (mkPanel ["lab.png"; "dock.png"] false false)
           [true; false; true; true; true; true] m "dock.png").
  - intros u p H. cbn in H. by rewrite lookup_empty in H.
  - reflexivity.
  - reflexivity.
  - reflexivity.
  - reflexivity.
  - cbn. lia.
  - reflexivity.
  - apply list_elem_of_In. cbn. auto.
Defined.

End SidePopup.
